(** * StringUtility: case conversion of identifiers

    A shallow embedding of [src/utilities/StringUtility.ts] and the
    properties of its tokenizer ([toSentence]) and renderers.

    The TypeScript code is a chain of [String.prototype.replace] calls
    with regular expressions.  The embedding keeps that shape: a small
    backtracking matcher for the regular-expression fragment the file
    uses, the two replace drivers (global and first-match), and the
    replacement-template expansion [GetSubstitution] of ECMAScript.  Each
    method of the class is then a one-to-one transcription of its source
    body. *)

From Stdlib Require Import List NArith Arith Bool Lia String Ascii.
Import ListNotations.
Local Open Scope list_scope.

(** ** ECMAScript strings and the pieces of the runtime the class uses *)

Module JS.

(** A JavaScript string is a finite sequence of UTF-16 code units. *)
Definition code_unit := N.
Definition jstring := list code_unit.

(** String literals of the source, written as Rocq strings. *)
Definition lit (s : String.string) : jstring :=
  map N_of_ascii (list_ascii_of_string s).

Definition SPACE : code_unit := 32%N.
Definition DOLLAR : code_unit := 36%N.

(** *** Character classes *)

Definition between (lo hi c : code_unit) : bool :=
  (N.leb lo c && N.leb c hi)%bool.
Arguments between (lo hi c)%_N_scope.

(** [\d] *)
Definition is_digit (c : code_unit) : bool := between 48 57 c.
(** [[a-z]] *)
Definition is_lower (c : code_unit) : bool := between 97 122 c.
(** [[A-Z]] *)
Definition is_upper (c : code_unit) : bool := between 65 90 c.
(** [[a-zA-Z]] *)
Definition is_letter (c : code_unit) : bool := is_lower c || is_upper c.
(** [\w], that is [[A-Za-z0-9_]] *)
Definition is_word (c : code_unit) : bool :=
  is_letter c || is_digit c || N.eqb c 95.
(** [[a-zA-Z0-9 ]] and its complement [[^a-zA-Z0-9 ]] *)
Definition is_alnum_or_space (c : code_unit) : bool :=
  is_letter c || is_digit c || N.eqb c SPACE.
Definition not_alnum_or_space (c : code_unit) : bool :=
  negb (is_alnum_or_space c).
(** [\s]: WhiteSpace and LineTerminator of ECMAScript. *)
Definition is_space (c : code_unit) : bool :=
  between 9 13 c || N.eqb c 32 || N.eqb c 160 || N.eqb c 5760 ||
  between 8192 8202 c || N.eqb c 8232 || N.eqb c 8233 || N.eqb c 8239 ||
  N.eqb c 8287 || N.eqb c 12288 || N.eqb c 65279.
(** [\S] *)
Definition is_nonspace (c : code_unit) : bool := negb (is_space c).
(** the literal space of a pattern *)
Definition is_SPACE (c : code_unit) : bool := N.eqb c SPACE.

(** *** Case mapping

    [toLowerCase] and [toUpperCase] are modelled on the ASCII range,
    where ECMAScript maps exactly [A-Z] to [a-z] and back and leaves
    every other code unit alone.  Code units from 128 on are left
    unchanged by the model; every call site of the class applies the
    mappings to ASCII text only (lemmas [lower_arg_ascii],
    [toSentence_default_ascii] and [toSentence_snake_ascii] below). *)

Definition lower_unit (c : code_unit) : code_unit :=
  if is_upper c then (c + 32)%N else c.
Definition upper_unit (c : code_unit) : code_unit :=
  if is_lower c then (c - 32)%N else c.
Definition toLowerCase (s : jstring) : jstring := map lower_unit s.
Definition toUpperCase (s : jstring) : jstring := map upper_unit s.

(** [s.charAt(i)]: the one-unit string at index [i], empty out of range. *)
Definition charAt (s : jstring) (i : nat) : jstring :=
  firstn 1 (skipn i s).
(** [s.substr(i)] for a non-negative [i]: the rest of the string from [i]. *)
Definition substr (s : jstring) (i : nat) : jstring := skipn i s.

(** *** Regular expressions

    The fragment used by the class: classes, literal order, alternation,
    greedy [*] and [+] over a class, one capturing group, positive
    lookahead and the two anchors (no [m] flag: [^] is the start and
    [$] the end of the whole input). *)

Inductive regex : Type :=
| Cls (p : code_unit -> bool)
| Seq (r1 r2 : regex)
| Alt (r1 r2 : regex)
| Star (p : code_unit -> bool)
| Plus (p : code_unit -> bool)
| Group (r : regex)
| Ahead (r : regex)
| Bol
| Eol.

(** A match state is the index reached, the input that remains and the
    captures closed so far; a continuation decides whether the rest of
    the pattern matches from there, and the matcher backtracks when it
    does not.  The result is the end index with the captures. *)
Definition result := option (nat * list jstring).
Definition cont := nat -> jstring -> list jstring -> result.

Fixpoint star (p : code_unit -> bool) (k : cont)
         (pos : nat) (s : jstring) (caps : list jstring) : result :=
  match s with
  | c :: t =>
      if p c then
        match star p k (S pos) t caps with
        | Some r => Some r
        | None => k pos s caps
        end
      else k pos s caps
  | [] => k pos s caps
  end.

Fixpoint run (r : regex) (k : cont)
         (pos : nat) (s : jstring) (caps : list jstring) : result :=
  match r with
  | Cls p =>
      match s with
      | c :: t => if p c then k (S pos) t caps else None
      | [] => None
      end
  | Seq r1 r2 => run r1 (run r2 k) pos s caps
  | Alt r1 r2 =>
      match run r1 k pos s caps with
      | Some x => Some x
      | None => run r2 k pos s caps
      end
  | Star p => star p k pos s caps
  | Plus p =>
      match s with
      | c :: t => if p c then star p k (S pos) t caps else None
      | [] => None
      end
  | Group r1 =>
      run r1 (fun pos' s' caps' =>
                k pos' s' (caps' ++ [firstn (pos' - pos) s])) pos s caps
  | Ahead r1 =>
      match run r1 (fun pos' _ caps' => Some (pos', caps')) pos s caps with
      | Some (_, caps') => k pos s caps'
      | None => None
      end
  | Bol => if Nat.eqb pos 0 then k pos s caps else None
  | Eol => match s with [] => k pos s caps | _ :: _ => None end
  end.

(** One attempt at index [pos], where [s] is the input from [pos] on:
    the length of the match and its captures. *)
Definition exec_at (r : regex) (pos : nat) (s : jstring)
  : option (nat * list jstring) :=
  match run r (fun pos' _ caps => Some (pos', caps)) pos s [] with
  | Some (e, caps) => Some (e - pos, caps)
  | None => None
  end.

(** *** Replacement values

    A replacement receives the matched text, the captures, the index of
    the match and the whole input: the arguments of a replacer callback,
    and what a replacement template can refer to. *)
Definition replacer := jstring -> list jstring -> nat -> jstring -> jstring.

Definition digit_value (c : code_unit) : nat := N.to_nat (c - 48).

(** The capture a [$n] reference stands for, when [1 <= n <= m]. *)
Definition capture_ref (captures : list jstring) (n : nat)
  : option jstring :=
  match n with
  | O => None
  | S i => nth_error captures i
  end.

(** [GetSubstitution] for a pattern without named groups: [$$], [$&],
    [$`], [$'], [$n] and [$nn]; any other [$] stands for itself. *)
Fixpoint GetSubstitution (matched whole : jstring) (position : nat)
         (captures : list jstring) (template : jstring) : jstring :=
  match template with
  | [] => []
  | c :: t =>
      if negb (N.eqb c DOLLAR) then
        c :: GetSubstitution matched whole position captures t
      else
        match t with
        | [] => [c]
        | d :: t1 =>
            if N.eqb d DOLLAR then
              DOLLAR :: GetSubstitution matched whole position captures t1
            else if N.eqb d 96 then
              firstn position whole
                ++ GetSubstitution matched whole position captures t1
            else if N.eqb d 38 then
              matched ++ GetSubstitution matched whole position captures t1
            else if N.eqb d 39 then
              skipn (position + List.length matched) whole
                ++ GetSubstitution matched whole position captures t1
            else if is_digit d then
              let one :=
                match capture_ref captures (digit_value d) with
                | Some cap =>
                    cap ++ GetSubstitution matched whole position captures t1
                | None =>
                    c :: d
                      :: GetSubstitution matched whole position captures t1
                end in
              match t1 with
              | d2 :: t2 =>
                  if is_digit d2 then
                    match capture_ref captures
                            (10 * digit_value d + digit_value d2) with
                    | Some cap =>
                        cap ++ GetSubstitution matched whole position
                                 captures t2
                    | None =>
                        if Nat.ltb (List.length captures)
                             (10 * digit_value d + digit_value d2)
                        then one
                        else c :: d :: d2
                               :: GetSubstitution matched whole position
                                    captures t2
                    end
                  else one
              | [] => one
              end
            else
              c :: GetSubstitution matched whole position captures t
        end
  end.

(** A replacement given as a string. *)
Definition template (tpl : jstring) : replacer :=
  fun matched captures position whole =>
    GetSubstitution matched whole position captures tpl.

(** *** [String.prototype.replace]

    With the [g] flag: matches are looked for from left to right, each
    attempt starting where the previous match ended (one unit further
    after an empty match); text between matches is copied.  [skip] counts
    the units of the current match still to be passed over. *)
Fixpoint replace_loop (r : regex) (f : replacer) (whole : jstring)
         (skip pos : nat) (s : jstring) {struct s} : jstring :=
  match s with
  | [] =>
      match skip with
      | S _ => []
      | O =>
          match exec_at r pos [] with
          | Some (_, caps) => f [] caps pos whole
          | None => []
          end
      end
  | c :: t =>
      match skip with
      | S k => replace_loop r f whole k (S pos) t
      | O =>
          match exec_at r pos s with
          | Some (n, caps) =>
              f (firstn n s) caps pos whole ++
              match n with
              | O => c :: replace_loop r f whole 0 (S pos) t
              | S k => replace_loop r f whole k (S pos) t
              end
          | None => c :: replace_loop r f whole 0 (S pos) t
          end
      end
  end.

Definition replace_g (r : regex) (f : replacer) (s : jstring) : jstring :=
  replace_loop r f s 0 0 s.

(** Without the [g] flag: only the first match is replaced. *)
Fixpoint replace_first_loop (r : regex) (f : replacer) (whole : jstring)
         (pos : nat) (s : jstring) {struct s} : jstring :=
  match exec_at r pos s with
  | Some (n, caps) => f (firstn n s) caps pos whole ++ skipn n s
  | None =>
      match s with
      | [] => []
      | c :: t => c :: replace_first_loop r f whole (S pos) t
      end
  end.

Definition replace_first (r : regex) (f : replacer) (s : jstring)
  : jstring :=
  replace_first_loop r f s 0 s.

End JS.

Import JS.

(** ** The case-type selector *)

Module CaseConverterEnum.

(** Modelled from the spec: the declaration of [CaseConverterEnum]
    (imported from [../constants/CaseConverterEnum], a file of its own);
    the spec gives it as a closed enumeration of eleven variants without
    instance data. *)
Inductive t : Type :=
| CamelCase | ConstantCase | DotCase | KebabCase | LowerCase
| PascalCase | PathCase | SentenceCase | SnakeCase | TitleCase
| None.

End CaseConverterEnum.

(** What [toCase] can receive at run time as its [caseType]: one of the
    enumeration's constants, or any other value ([Foreign], tagged by a
    number that stands for the value).  The constants are taken to be
    pairwise distinct, so a [switch] on them selects by variant. *)
Inductive selector : Type :=
| Member (c : CaseConverterEnum.t)
| Foreign (v : N).

(** ** The class *)

Module StringUtility.

(** The text [toSentence] lower-cases: the input after the five
    boundary rewrites ([String(str)] is [str] itself, the parameter being
    a string; the rewrites apply innermost first). *)
Definition spaced (str : jstring) : jstring :=
  (* .replace(/^ | $/g, '') *)
  replace_g (Alt (Seq Bol (Cls is_SPACE)) (Seq (Cls is_SPACE) Eol))
    (template [])
    (* .replace(/\s+/g, ' ') *)
    (replace_g (Plus is_space) (template (lit " "))
       (* .replace(/[^a-zA-Z0-9 ]/g, ' ') *)
       (replace_g (Cls not_alnum_or_space) (template (lit " "))
          (* .replace(/([a-z](?=[A-Z]))/g, '$1 ') *)
          (replace_g (Group (Seq (Cls is_lower) (Ahead (Cls is_upper))))
             (template (lit "$1 "))
             (* .replace(/(\d+)/g, ' $1 ') *)
             (replace_g (Group (Plus is_digit)) (template (lit " $1 "))
                str)))).

Definition toSentence (str : jstring) (separator : jstring) : jstring :=
  (* .toLowerCase().replace(/\s+/g, separator) *)
  replace_g (Plus is_space) (template separator) (toLowerCase (spaced str)).

(** The default value of the [separator] parameter. *)
Definition default_separator : jstring := lit " ".

Definition toCamelCase (str : jstring) : jstring :=
  (* .replace(/ (\w)/g, (_, $1) => $1.toUpperCase()) *)
  replace_g (Seq (Cls is_SPACE) (Group (Cls is_word)))
    (fun _ captures _ _ => toUpperCase (nth 0 captures []))
    (toSentence str default_separator).

Definition toPascalCase (str : jstring) : jstring :=
  (* .replace(/^[a-zA-Z]/, (a, b, c) => a.toUpperCase()) *)
  replace_first (Seq Bol (Cls is_letter))
    (fun a _ _ _ => toUpperCase a)
    (toCamelCase str).

Definition toConstantCase (str : jstring) : jstring :=
  toUpperCase (toSentence str (lit "_")).

Definition toTitleCase (str : jstring) : jstring :=
  (* .replace(/\w\S*/g, txt => ...) *)
  replace_g (Seq (Cls is_word) (Star is_nonspace))
    (fun txt _ _ _ =>
       toUpperCase (charAt txt 0) ++ toLowerCase (substr txt 1))
    (toSentence str default_separator).

Definition toSentenceCase (str : jstring) : jstring :=
  let sentence := toSentence str default_separator in
  toUpperCase (charAt sentence 0) ++ toLowerCase (substr sentence 1).

Definition toCase (str : jstring) (caseType : selector) : jstring :=
  match caseType with
  | Member CaseConverterEnum.CamelCase => toCamelCase str
  | Member CaseConverterEnum.ConstantCase => toConstantCase str
  | Member CaseConverterEnum.DotCase => toSentence str (lit ".")
  | Member CaseConverterEnum.KebabCase => toSentence str (lit "-")
  | Member CaseConverterEnum.LowerCase => toSentence str []
  | Member CaseConverterEnum.PascalCase => toPascalCase str
  | Member CaseConverterEnum.PathCase => toSentence str (lit "/")
  | Member CaseConverterEnum.SentenceCase => toSentenceCase str
  | Member CaseConverterEnum.SnakeCase => toSentence str (lit "_")
  | Member CaseConverterEnum.TitleCase => toTitleCase str
  | Member CaseConverterEnum.None => str
  | Foreign _ => str
  end.

End StringUtility.

Import StringUtility.

(** ** Scanners

    Each rewrite of [toSentence] is a left-to-right scan.  The scanners
    below say what one pass does in a single structural recursion; the
    section on the passes proves that the regular-expression form of the
    source computes exactly these. *)

(** Length of the longest prefix of [s] inside the class [p]. *)
Fixpoint span (p : code_unit -> bool) (s : jstring) : nat :=
  match s with
  | c :: t => if p c then S (span p t) else 0
  | [] => 0
  end.

(** A space before and after every maximal run of digits; [inrun] tells
    that the previous unit was a digit. *)
Fixpoint pad_digits (inrun : bool) (s : jstring) : jstring :=
  match s with
  | [] => if inrun then [SPACE] else []
  | c :: t =>
      if is_digit c
      then (if inrun then [c] else [SPACE; c]) ++ pad_digits true t
      else (if inrun then [SPACE; c] else [c]) ++ pad_digits false t
  end.

(** A space after a lower-case letter that an upper-case letter follows. *)
Fixpoint camel_split (s : jstring) : jstring :=
  match s with
  | [] => []
  | c :: t =>
      if is_lower c && match t with d :: _ => is_upper d | [] => false end
      then c :: SPACE :: camel_split t
      else c :: camel_split t
  end.

(** Every unit outside [[a-zA-Z0-9 ]] becomes a space. *)
Definition blank_unit (c : code_unit) : code_unit :=
  if not_alnum_or_space c then SPACE else c.
Definition blank (s : jstring) : jstring := map blank_unit s.

(** Every maximal run of white space becomes [sep]; [inrun] tells that the
    previous unit was white space. *)
Fixpoint join_runs (sep : jstring) (inrun : bool) (s : jstring) : jstring :=
  match s with
  | [] => []
  | c :: t =>
      if is_space c
      then (if inrun then [] else sep) ++ join_runs sep true t
      else c :: join_runs sep false t
  end.

Definition collapse (s : jstring) : jstring := join_runs [SPACE] false s.

(** One space taken from the end, then one from the start. *)
Fixpoint trim_end (s : jstring) : jstring :=
  match s with
  | [] => []
  | c :: t =>
      match t with
      | [] => if is_SPACE c then [] else [c]
      | _ :: _ => c :: trim_end t
      end
  end.

Definition trim (s : jstring) : jstring :=
  match s with
  | [] => []
  | c :: t => if is_SPACE c then trim_end t else trim_end s
  end.

(** A space followed by a word character: the space goes and the
    character is upper-cased. *)
Fixpoint camel_join (s : jstring) : jstring :=
  match s with
  | [] => []
  | c :: t =>
      match t with
      | d :: t' =>
          if is_SPACE c && is_word d
          then upper_unit d :: camel_join t'
          else c :: camel_join t
      | [] => [c]
      end
  end.

(** ** Tokens *)

(** The fields of a string, cut at every white-space unit. *)
Fixpoint fields (s : jstring) : list jstring :=
  match s with
  | [] => [[]]
  | c :: t =>
      if is_space c then [] :: fields t
      else match fields t with
           | w :: ws => (c :: w) :: ws
           | [] => [[c]]
           end
  end.

Definition nonempty (w : jstring) : bool :=
  match w with [] => false | _ :: _ => true end.

(** The words of a string: its non-empty fields. *)
Definition words (s : jstring) : list jstring := filter nonempty (fields s).

(** Words put together again with [sep] between neighbours. *)
Fixpoint intercalate (sep : jstring) (ws : list jstring) : jstring :=
  match ws with
  | [] => []
  | w :: ws' =>
      w ++ match ws' with
           | [] => []
           | _ :: _ => sep ++ intercalate sep ws'
           end
  end.

(** The input with all token boundaries marked by spaces (the first three
    rewrites), and the token sequence of an input. *)
Definition boundaries (str : jstring) : jstring :=
  blank (camel_split (pad_digits false str)).

Definition tokens (str : jstring) : list jstring :=
  map toLowerCase (words (boundaries str)).

(** A token of a normalized string: lower-case letters only, or digits
    only, and not empty. *)
Definition is_token (w : jstring) : bool :=
  nonempty w && (forallb is_lower w || forallb is_digit w).

(** Units a separator may be made of for the separator laws: no ASCII
    letter, no digit and no dollar sign. *)
Definition plain_unit (c : code_unit) : bool :=
  negb (is_letter c) && negb (is_digit c) && negb (N.eqb c DOLLAR).

(** Every space of [s] replaced by [sep]. *)
Definition substitute_spaces (sep : jstring) (s : jstring) : jstring :=
  flat_map (fun c => if is_SPACE c then sep else [c]) s.

(** The first unit upper-cased and the remainder lower-cased. *)
Definition capitalize (s : jstring) : jstring :=
  match s with
  | [] => []
  | c :: t => upper_unit c :: map lower_unit t
  end.

(** A word in the sense of [words]: not empty and free of white space. *)
Definition is_word_of (w : jstring) : bool :=
  nonempty w && forallb is_nonspace w.

(** Two neighbours respect the digit boundaries when a digit meets a
    non-digit only across a space. *)
Definition sep_ok (a b : code_unit) : bool :=
  is_SPACE a || is_SPACE b || Bool.eqb (is_digit a) (is_digit b).

Fixpoint chain (s : jstring) : bool :=
  match s with
  | [] => true
  | a :: t =>
      match t with
      | [] => true
      | b :: _ => sep_ok a b && chain t
      end
  end.

(** Digits only, or no digit at all. *)
Definition uniform (w : jstring) : bool :=
  forallb is_digit w || forallb (fun c => negb (is_digit c)) w.

(** Whether the unit before the current one is a digit, after scanning
    [s] from a state [b]. *)
Fixpoint digit_state (b : bool) (s : jstring) : bool :=
  match s with
  | [] => b
  | c :: t => digit_state (is_digit c) t
  end.

(** Whether [s] starts with a digit. *)
Definition starts_with_digit (s : jstring) : bool :=
  match s with
  | c :: _ => is_digit c
  | [] => false
  end.

(** A word with its first unit upper-cased. *)
Definition upper_first (w : jstring) : jstring :=
  match w with
  | [] => []
  | c :: t => upper_unit c :: t
  end.

(** [[a-zA-Z0-9]] *)
Definition is_alnum (c : code_unit) : bool := is_letter c || is_digit c.

(** The selectors that render, that is all but [None]. *)
Definition renders (t : CaseConverterEnum.t) : bool :=
  match t with
  | CaseConverterEnum.None => false
  | _ => true
  end.

(** The selectors whose output has the token sequence of the input: the
    renderers that keep a separator between the tokens, and [None]. *)
Definition keeps_tokens (t : CaseConverterEnum.t) : bool :=
  match t with
  | CaseConverterEnum.CamelCase
  | CaseConverterEnum.PascalCase
  | CaseConverterEnum.LowerCase => false
  | _ => true
  end.

(** No lower-case letter directly before an upper-case letter. *)
Fixpoint no_hump (s : jstring) : bool :=
  match s with
  | [] => true
  | c :: t =>
      negb (is_lower c && match t with d :: _ => is_upper d | [] => false end)
      && no_hump t
  end.

(** The replacer callback of [toTitleCase]. *)
Definition title_case_replacer : replacer :=
  fun txt _ _ _ => toUpperCase (charAt txt 0) ++ toLowerCase (substr txt 1).

(** * Properties *)

#[local] Arguments Nat.sub : simpl never.

(** ** Character classes *)

Ltac unfold_classes :=
  unfold plain_unit, blank_unit, not_alnum_or_space, is_alnum_or_space,
    is_word, is_letter, is_nonspace, is_SPACE, is_lower, is_upper, is_digit,
    lower_unit, upper_unit, between, SPACE, DOLLAR in *.

(** Splits on every comparison in sight; for goals with few of them. *)
Ltac split_cmp :=
  repeat match goal with
    | H : context [N.leb ?a ?b] |- _ => destruct (N.leb_spec a b)
    | |- context [N.leb ?a ?b] => destruct (N.leb_spec a b)
    | H : context [N.eqb ?a ?b] |- _ => destruct (N.eqb_spec a b)
    | |- context [N.eqb ?a ?b] => destruct (N.eqb_spec a b)
    end;
  simpl in *; try congruence; try lia.

(** Settles each comparison of the goal by arithmetic, one at a time. *)
Ltac settle_one :=
  match goal with
  | |- context [N.leb ?a ?b] =>
      first [ replace (N.leb a b) with true
                by (symmetry; apply N.leb_le; lia)
            | replace (N.leb a b) with false
                by (symmetry; apply N.leb_gt; lia) ]
  | |- context [N.eqb ?a ?b] =>
      first [ replace (N.eqb a b) with true
                by (symmetry; apply N.eqb_eq; lia)
            | replace (N.eqb a b) with false
                by (symmetry; apply N.eqb_neq; lia) ]
  end.

Ltac settle_cmp := repeat (settle_one; cbn [andb orb negb]); try reflexivity.

Lemma is_space_SPACE : is_space SPACE = true.
Proof. reflexivity. Qed.

Lemma is_SPACE_eq c : is_SPACE c = true -> c = SPACE.
Proof. unfold is_SPACE. apply N.eqb_eq. Qed.

Lemma letter_range c :
  is_letter c = true -> (65 <= c <= 90 \/ 97 <= c <= 122)%N.
Proof. unfold_classes. split_cmp. Qed.

Lemma digit_range c : is_digit c = true -> (48 <= c <= 57)%N.
Proof. unfold_classes. split_cmp. Qed.

Lemma lower_range c : is_lower c = true -> (97 <= c <= 122)%N.
Proof. unfold_classes. split_cmp. Qed.

Lemma upper_range c : is_upper c = true -> (65 <= c <= 90)%N.
Proof. unfold_classes. split_cmp. Qed.

Lemma letter_not_space c : is_letter c = true -> is_space c = false.
Proof.
  intros H. apply letter_range in H. unfold is_space, between.
  destruct H; settle_cmp.
Qed.

Lemma digit_not_space c : is_digit c = true -> is_space c = false.
Proof.
  intros H. apply digit_range in H. unfold is_space, between. settle_cmp.
Qed.

Lemma lower_not_space c : is_lower c = true -> is_space c = false.
Proof.
  intros H. apply letter_not_space. unfold is_letter. now rewrite H.
Qed.

Lemma lower_is_word c : is_lower c = true -> is_word c = true.
Proof. intros H. unfold is_word, is_letter. now rewrite H. Qed.

Lemma digit_is_word c : is_digit c = true -> is_word c = true.
Proof.
  intros H. unfold is_word. rewrite H. now rewrite orb_true_r.
Qed.

Lemma digit_not_lower c : is_digit c = true -> is_lower c = false.
Proof. unfold_classes. split_cmp. Qed.

Lemma digit_not_upper c : is_digit c = true -> is_upper c = false.
Proof. unfold_classes. split_cmp. Qed.

Lemma lower_not_digit c : is_lower c = true -> is_digit c = false.
Proof. unfold_classes. split_cmp. Qed.

Lemma lower_not_upper c : is_lower c = true -> is_upper c = false.
Proof. unfold_classes. split_cmp. Qed.

Lemma space_unit_cases c :
  is_alnum_or_space c = true ->
  is_space c = true -> c = SPACE.
Proof.
  unfold is_alnum_or_space. intros H Hs.
  apply orb_true_iff in H as [H | H].
  - apply orb_true_iff in H as [H | H].
    + apply letter_not_space in H. congruence.
    + apply digit_not_space in H. congruence.
  - now apply N.eqb_eq in H.
Qed.

Lemma is_space_lower_unit c : is_space (lower_unit c) = is_space c.
Proof.
  unfold lower_unit. destruct (is_upper c) eqn:E; [|reflexivity].
  assert (is_space c = false) as ->
      by (apply letter_not_space; unfold is_letter; rewrite E;
          apply orb_true_r).
  apply upper_range in E. unfold is_space, between. settle_cmp.
Qed.

Lemma is_digit_blank_unit c : is_digit (blank_unit c) = is_digit c.
Proof. unfold_classes. split_cmp. Qed.

Lemma blank_unit_ok c : is_alnum_or_space (blank_unit c) = true.
Proof.
  unfold blank_unit, not_alnum_or_space.
  destruct (is_alnum_or_space c) eqn:E; simpl; [exact E | reflexivity].
Qed.

Lemma blank_unit_id c : is_alnum_or_space c = true -> blank_unit c = c.
Proof.
  intros H. unfold blank_unit, not_alnum_or_space. now rewrite H.
Qed.

Lemma blank_unit_plain c :
  negb (is_letter c) && negb (is_digit c) = true ->
  blank_unit c = SPACE.
Proof.
  unfold blank_unit, not_alnum_or_space, is_alnum_or_space.
  intros H. apply andb_true_iff in H as [H1 H2].
  apply negb_true_iff in H1, H2. rewrite H1, H2. simpl.
  destruct (N.eqb_spec c SPACE); simpl; congruence.
Qed.

(** ** The replacement template *)

(** A template without a dollar sign stands for itself. *)
Lemma GetSubstitution_plain matched whole position captures tpl :
  forallb (fun c => negb (N.eqb c DOLLAR)) tpl = true ->
  GetSubstitution matched whole position captures tpl = tpl.
Proof.
  induction tpl as [|c t IH]; simpl; [reflexivity|].
  intros H. apply andb_true_iff in H as [Hc Ht].
  rewrite Hc. now rewrite IH.
Qed.

(** ** The matcher on the patterns of the class *)

(** A greedy class repetition before a continuation that accepts
    everything takes the whole run. *)
Lemma star_total p (k : cont) :
  (forall a b c, k a b c <> None) ->
  forall s pos caps,
    star p k pos s caps = k (pos + span p s) (skipn (span p s) s) caps.
Proof.
  intros Hk. induction s as [|c t IH]; intros pos caps; simpl.
  - now rewrite Nat.add_0_r.
  - destruct (p c).
    + rewrite IH. rewrite Nat.add_succ_r. simpl.
      destruct (k (S (pos + span p t)) (skipn (span p t) t) caps) eqn:E;
        [reflexivity | now apply Hk in E].
    + now rewrite Nat.add_0_r.
Qed.

Lemma sub_succ_self n : S n - n = 1.
Proof. lia. Qed.

Lemma sub_add_self n m : n + m - n = m.
Proof. lia. Qed.

(** [(\d+)] *)
Lemma exec_group_plus p pos s :
  exec_at (Group (Plus p)) pos s =
    match s with
    | c :: t =>
        if p c
        then Some (S (span p t), [firstn (S (span p t)) s])
        else None
    | [] => None
    end.
Proof.
  unfold exec_at. destruct s as [|c t]; simpl; [reflexivity|].
  destruct (p c); [|reflexivity].
  rewrite star_total by discriminate.
  replace (S pos + span p t - pos) with (S (span p t)) by lia.
  reflexivity.
Qed.

(** [\s+] *)
Lemma exec_plus p pos s :
  exec_at (Plus p) pos s =
    match s with
    | c :: t => if p c then Some (S (span p t), []) else None
    | [] => None
    end.
Proof.
  unfold exec_at. destruct s as [|c t]; simpl; [reflexivity|].
  destruct (p c); [|reflexivity].
  rewrite star_total by discriminate.
  replace (S pos + span p t - pos) with (S (span p t)) by lia.
  reflexivity.
Qed.

(** [[^a-zA-Z0-9 ]] *)
Lemma exec_cls p pos s :
  exec_at (Cls p) pos s =
    match s with
    | c :: _ => if p c then Some (1, []) else None
    | [] => None
    end.
Proof.
  unfold exec_at. destruct s as [|c t]; simpl; [reflexivity|].
  destruct (p c); [|reflexivity]. now rewrite sub_succ_self.
Qed.

(** [([a-z](?=[A-Z]))] *)
Lemma exec_lower_before_upper pos s :
  exec_at (Group (Seq (Cls is_lower) (Ahead (Cls is_upper)))) pos s =
    match s with
    | c :: t =>
        if is_lower c && match t with d :: _ => is_upper d | [] => false end
        then Some (1, [[c]])
        else None
    | [] => None
    end.
Proof.
  unfold exec_at. destruct s as [|c t]; simpl; [reflexivity|].
  destruct (is_lower c); simpl; [|reflexivity].
  destruct t as [|d t']; [reflexivity|].
  destruct (is_upper d); [|reflexivity].
  now rewrite sub_succ_self.
Qed.

(** [^ | $] *)
Lemma exec_edge_space pos s :
  exec_at (Alt (Seq Bol (Cls is_SPACE)) (Seq (Cls is_SPACE) Eol)) pos s =
    match s with
    | c :: t =>
        if is_SPACE c && (Nat.eqb pos 0 || negb (nonempty t))
        then Some (1, [])
        else None
    | [] => None
    end.
Proof.
  unfold exec_at. destruct s as [|c t]; simpl.
  - now destruct (Nat.eqb pos 0).
  - destruct (Nat.eqb pos 0), (is_SPACE c); simpl;
      rewrite ?sub_succ_self; try reflexivity.
    destruct t; simpl; rewrite ?sub_succ_self; reflexivity.
Qed.

(** [ (\w)] *)
Lemma exec_space_word pos s :
  exec_at (Seq (Cls is_SPACE) (Group (Cls is_word))) pos s =
    match s with
    | c :: d :: _ =>
        if is_SPACE c && is_word d then Some (2, [[d]]) else None
    | _ => None
    end.
Proof.
  unfold exec_at. destruct s as [|c [|d t]]; simpl; try reflexivity.
  - now destruct (is_SPACE c).
  - destruct (is_SPACE c); simpl; [|reflexivity].
    destruct (is_word d); [|reflexivity].
    rewrite sub_succ_self. simpl.
    replace (S (S pos) - pos) with 2 by lia. reflexivity.
Qed.

(** ** The passes of [toSentence] as scanners *)

Lemma template_pad matched cap position whole :
  template (lit " $1 ") matched [cap] position whole = SPACE :: cap ++ [SPACE].
Proof. reflexivity. Qed.

Lemma template_split matched cap position whole :
  template (lit "$1 ") matched [cap] position whole = cap ++ [SPACE].
Proof. reflexivity. Qed.

Lemma template_plain tpl matched captures position whole :
  forallb (fun c => negb (N.eqb c DOLLAR)) tpl = true ->
  template tpl matched captures position whole = tpl.
Proof. apply GetSubstitution_plain. Qed.

(** [.replace(/(\d+)/g, ' $1 ')] *)
Lemma pad_digits_loop whole s :
  forall pos,
    replace_loop (Group (Plus is_digit)) (template (lit " $1 ")) whole 0 pos s
    = pad_digits false s
    /\ firstn (span is_digit s) s
         ++ SPACE :: replace_loop (Group (Plus is_digit))
                       (template (lit " $1 ")) whole (span is_digit s) pos s
       = pad_digits true s.
Proof.
  induction s as [|c t IH]; intros pos.
  - split; reflexivity.
  - destruct (IH (S pos)) as [IH0 IH1]. split.
    + cbn [replace_loop]. rewrite exec_group_plus.
      cbn [pad_digits]. destruct (is_digit c) eqn:Hc.
      * rewrite template_pad. cbn [firstn app]. rewrite <- IH1.
        rewrite <- app_assoc. reflexivity.
      * now rewrite IH0.
    + cbn [span pad_digits]. destruct (is_digit c) eqn:Hc.
      * cbn [firstn replace_loop app]. now rewrite IH1.
      * cbn [firstn app replace_loop]. rewrite exec_group_plus, Hc.
        now rewrite IH0.
Qed.

Lemma replace_pad_digits s :
  replace_g (Group (Plus is_digit)) (template (lit " $1 ")) s
  = pad_digits false s.
Proof. apply pad_digits_loop. Qed.

(** [.replace(/([a-z](?=[A-Z]))/g, '$1 ')] *)
Lemma camel_split_loop whole s :
  forall pos,
    replace_loop (Group (Seq (Cls is_lower) (Ahead (Cls is_upper))))
      (template (lit "$1 ")) whole 0 pos s
    = camel_split s.
Proof.
  induction s as [|c t IH]; intros pos; [reflexivity|].
  cbn [replace_loop camel_split]. rewrite exec_lower_before_upper.
  destruct (is_lower c && match t with d :: _ => is_upper d | [] => false end).
  - rewrite template_split. cbn [firstn app]. now rewrite IH.
  - now rewrite IH.
Qed.

Lemma replace_camel_split s :
  replace_g (Group (Seq (Cls is_lower) (Ahead (Cls is_upper))))
    (template (lit "$1 ")) s
  = camel_split s.
Proof. apply camel_split_loop. Qed.

(** [.replace(/[^a-zA-Z0-9 ]/g, ' ')] *)
Lemma blank_loop whole s :
  forall pos,
    replace_loop (Cls not_alnum_or_space) (template (lit " ")) whole 0 pos s
    = blank s.
Proof.
  induction s as [|c t IH]; intros pos; [reflexivity|].
  cbn [replace_loop blank map]. rewrite exec_cls. unfold blank_unit.
  destruct (not_alnum_or_space c); cbn [app]; rewrite IH; reflexivity.
Qed.

Lemma replace_blank s :
  replace_g (Cls not_alnum_or_space) (template (lit " ")) s = blank s.
Proof. apply blank_loop. Qed.

(** [.replace(/\s+/g, sep)] for a separator without a dollar sign *)
Lemma join_runs_loop sep whole s :
  forallb (fun c => negb (N.eqb c DOLLAR)) sep = true ->
  forall pos,
    replace_loop (Plus is_space) (template sep) whole 0 pos s
    = join_runs sep false s
    /\ replace_loop (Plus is_space) (template sep) whole
         (span is_space s) pos s
       = join_runs sep true s.
Proof.
  intros Hsep. induction s as [|c t IH]; intros pos.
  - split; reflexivity.
  - destruct (IH (S pos)) as [IH0 IH1]. split.
    + cbn [replace_loop join_runs]. rewrite exec_plus.
      destruct (is_space c) eqn:Hc.
      * rewrite template_plain by exact Hsep. now rewrite IH1.
      * now rewrite IH0.
    + cbn [span join_runs]. destruct (is_space c) eqn:Hc.
      * cbn [replace_loop app]. exact IH1.
      * cbn [replace_loop]. rewrite exec_plus, Hc. now rewrite IH0.
Qed.

Lemma replace_join_runs sep s :
  forallb (fun c => negb (N.eqb c DOLLAR)) sep = true ->
  replace_g (Plus is_space) (template sep) s = join_runs sep false s.
Proof. intros H. now apply join_runs_loop. Qed.

Lemma replace_collapse s :
  replace_g (Plus is_space) (template (lit " ")) s = collapse s.
Proof. now apply replace_join_runs. Qed.

(** [.replace(/^ | $/g, '')] *)
Lemma trim_end_loop whole s :
  forall pos,
    replace_loop (Alt (Seq Bol (Cls is_SPACE)) (Seq (Cls is_SPACE) Eol))
      (template []) whole 0 (S pos) s
    = trim_end s.
Proof.
  induction s as [|c t IH]; intros pos; [reflexivity|].
  cbn [replace_loop trim_end]. rewrite exec_edge_space.
  cbn [Nat.eqb orb]. destruct t as [|d t'].
  - cbn [nonempty negb]. rewrite andb_true_r.
    destruct (is_SPACE c); reflexivity.
  - cbn [nonempty negb]. rewrite andb_false_r. now rewrite IH.
Qed.

Lemma replace_trim s :
  replace_g (Alt (Seq Bol (Cls is_SPACE)) (Seq (Cls is_SPACE) Eol))
    (template []) s
  = trim s.
Proof.
  unfold replace_g. destruct s as [|c t]; [reflexivity|].
  cbn [replace_loop trim]. rewrite exec_edge_space.
  cbn [Nat.eqb orb]. rewrite andb_true_r.
  destruct (is_SPACE c) eqn:Hc.
  - cbn [app template GetSubstitution lit]. apply trim_end_loop.
  - cbn [trim_end]. destruct t as [|d t']; [now rewrite Hc|].
    now rewrite trim_end_loop.
Qed.

(** The scanner form of the normalizer. *)
Lemma spaced_scan str :
  spaced str = trim (collapse (boundaries str)).
Proof.
  unfold spaced, boundaries.
  now rewrite replace_pad_digits, replace_camel_split, replace_blank,
    replace_collapse, replace_trim.
Qed.

Lemma toSentence_scan str sep :
  forallb (fun c => negb (N.eqb c DOLLAR)) sep = true ->
  toSentence str sep
  = join_runs sep false (toLowerCase (trim (collapse (boundaries str)))).
Proof.
  intros H. unfold toSentence.
  now rewrite replace_join_runs, spaced_scan.
Qed.

(** ** Words *)

Lemma fields_not_nil s : fields s <> [].
Proof.
  destruct s as [|c t]; simpl; [discriminate|].
  destruct (is_space c); [discriminate|].
  destruct (fields t); discriminate.
Qed.

Lemma fields_app_space u c v :
  is_space c = true -> fields (u ++ c :: v) = fields u ++ fields v.
Proof.
  intros Hc. induction u as [|a u IH]; simpl.
  - now rewrite Hc.
  - destruct (is_space a); [now rewrite IH|].
    rewrite IH. destruct (fields u) eqn:E; [|reflexivity].
    now apply fields_not_nil in E.
Qed.

Lemma words_app_space u c v :
  is_space c = true -> words (u ++ c :: v) = words u ++ words v.
Proof.
  intros Hc. unfold words. rewrite fields_app_space by exact Hc.
  apply filter_app.
Qed.

Lemma words_cons_space c t : is_space c = true -> words (c :: t) = words t.
Proof. intros Hc. unfold words. simpl. now rewrite Hc. Qed.

Lemma words_cons_nonspace c t :
  is_space c = false ->
  words (c :: t) =
    match t with
    | [] => [[c]]
    | d :: _ =>
        if is_space d then [c] :: words t
        else match words t with
             | w :: ws => (c :: w) :: ws
             | [] => [[c]]
             end
    end.
Proof.
  intros Hc. unfold words. simpl. rewrite Hc.
  destruct t as [|d t']; [reflexivity|]. simpl.
  destruct (is_space d); [reflexivity|].
  destruct (fields t') eqn:E; [now apply fields_not_nil in E|].
  reflexivity.
Qed.

Lemma fields_spacefree w :
  forallb is_nonspace w = true -> fields w = [w].
Proof.
  induction w as [|c t IH]; simpl; [reflexivity|].
  intros H. apply andb_true_iff in H as [Hc Ht].
  unfold is_nonspace in Hc. apply negb_true_iff in Hc.
  now rewrite Hc, IH.
Qed.

Lemma words_word w : is_word_of w = true -> words w = [w].
Proof.
  unfold is_word_of. intros H. apply andb_true_iff in H as [Hn Hs].
  unfold words. rewrite fields_spacefree by exact Hs. simpl.
  now rewrite Hn.
Qed.

Lemma words_all_space s : forallb is_space s = true -> words s = [].
Proof.
  induction s as [|c t IH]; simpl; [reflexivity|].
  intros H. apply andb_true_iff in H as [Hc Ht].
  rewrite words_cons_space by exact Hc. now apply IH.
Qed.

Lemma words_nil_all_space s : words s = [] -> forallb is_space s = true.
Proof.
  induction s as [|c t IH]; simpl; [reflexivity|].
  destruct (is_space c) eqn:Hc.
  - rewrite words_cons_space by exact Hc. exact IH.
  - rewrite words_cons_nonspace by exact Hc.
    destruct t as [|d t']; [discriminate|].
    destruct (is_space d); [discriminate|].
    destruct (words (d :: t')); discriminate.
Qed.

(** Every element of [words s] is a word. *)
Lemma words_are_words s : Forall (fun w => is_word_of w = true) (words s).
Proof.
  induction s as [|c t IH]; [constructor|].
  destruct (is_space c) eqn:Hc.
  - now rewrite words_cons_space.
  - assert (Hone : is_word_of [c] = true)
      by (unfold is_word_of, is_nonspace; simpl; now rewrite Hc).
    rewrite words_cons_nonspace by exact Hc.
    destruct t as [|d t']; [now constructor|].
    destruct (is_space d).
    + now constructor.
    + destruct (words (d :: t')) as [|w ws]; [now constructor|].
      inversion IH as [|? ? Hw Hws]; subst. constructor; [|exact Hws].
      unfold is_word_of in *. apply andb_true_iff in Hw as [_ Hw].
      simpl. unfold is_nonspace at 1. now rewrite Hc, Hw.
Qed.

Lemma intercalate_cons_unit sep c w ws :
  intercalate sep ((c :: w) :: ws) = c :: intercalate sep (w :: ws).
Proof. reflexivity. Qed.

Lemma intercalate_two sep w w' ws :
  intercalate sep (w :: w' :: ws) = w ++ sep ++ intercalate sep (w' :: ws).
Proof. reflexivity. Qed.

(** *** Collapsing and trimming leave the words, one space apart *)

Lemma join_runs_true_all_space sep s :
  forallb is_space s = true -> join_runs sep true s = [].
Proof.
  induction s as [|c t IH]; simpl; [reflexivity|].
  intros H. apply andb_true_iff in H as [Hc Ht].
  rewrite Hc. now apply IH.
Qed.

Lemma join_runs_true_not_nil sep s :
  forallb is_space s = false -> join_runs sep true s <> [].
Proof.
  induction s as [|c t IH]; simpl; [discriminate|].
  destruct (is_space c); simpl; [exact IH | discriminate].
Qed.

Lemma nonspace_not_SPACE c : is_space c = false -> is_SPACE c = false.
Proof.
  intros H. destruct (is_SPACE c) eqn:E; [|reflexivity].
  apply is_SPACE_eq in E. subst. discriminate.
Qed.

Lemma trim_collapse s :
  trim (collapse s) = trim_end (join_runs [SPACE] true s).
Proof.
  unfold collapse. destruct s as [|c t]; [reflexivity|].
  cbn [join_runs]. destruct (is_space c) eqn:Hc.
  - reflexivity.
  - cbn [trim]. now rewrite (nonspace_not_SPACE _ Hc).
Qed.

Lemma trim_end_words s :
  trim_end (join_runs [SPACE] true s) = intercalate [SPACE] (words s).
Proof.
  induction s as [|c t IH]; [reflexivity|].
  cbn [join_runs]. destruct (is_space c) eqn:Hc.
  - rewrite words_cons_space by exact Hc. exact IH.
  - rewrite words_cons_nonspace by exact Hc.
    destruct t as [|d t'].
    + simpl. now rewrite (nonspace_not_SPACE _ Hc).
    + cbn [join_runs] in *. destruct (is_space d) eqn:Hd.
      * rewrite words_cons_space in IH |- * by exact Hd.
        cbn [app]. destruct (forallb is_space t') eqn:Ht.
        -- rewrite join_runs_true_all_space, words_all_space by exact Ht.
           reflexivity.
        -- pose proof (join_runs_true_not_nil [SPACE] _ Ht) as Hne.
           destruct (words t') as [|w ws] eqn:Ew.
           ++ apply words_nil_all_space in Ew. congruence.
           ++ rewrite intercalate_two. rewrite <- IH.
              destruct (join_runs [SPACE] true t'); [congruence|].
              reflexivity.
      * destruct (words (d :: t')) as [|w ws] eqn:Ew.
        -- apply words_nil_all_space in Ew. simpl in Ew.
           rewrite Hd in Ew. discriminate.
        -- rewrite intercalate_cons_unit. cbn [trim_end]. f_equal. exact IH.
Qed.

Lemma squeeze_words s :
  trim (collapse s) = intercalate [SPACE] (words s).
Proof. now rewrite trim_collapse, trim_end_words. Qed.

(** *** Joining single-spaced words with a separator *)

Lemma join_runs_word sep b w r :
  is_word_of w = true ->
  join_runs sep b (w ++ r) = w ++ join_runs sep false r.
Proof.
  unfold is_word_of. intros H. apply andb_true_iff in H as [Hn Hs].
  revert b. induction w as [|c t IH]; intros b; [discriminate|].
  simpl in Hs. apply andb_true_iff in Hs as [Hc Ht].
  unfold is_nonspace in Hc. apply negb_true_iff in Hc.
  simpl. rewrite Hc. f_equal.
  destruct t as [|d t']; [reflexivity|]. now apply IH.
Qed.

Lemma join_runs_intercalate sep ws :
  Forall (fun w => is_word_of w = true) ws ->
  forall b, join_runs sep b (intercalate [SPACE] ws) = intercalate sep ws.
Proof.
  induction 1 as [|w ws Hw Hws IH]; intros b; [reflexivity|].
  destruct ws as [|w' ws'].
  - simpl. rewrite join_runs_word by exact Hw. reflexivity.
  - rewrite !intercalate_two. rewrite join_runs_word by exact Hw.
    f_equal. cbn [app join_runs]. rewrite is_space_SPACE.
    now rewrite IH.
Qed.

Lemma toLowerCase_app u v :
  toLowerCase (u ++ v) = toLowerCase u ++ toLowerCase v.
Proof. apply map_app. Qed.

Lemma toLowerCase_intercalate ws :
  toLowerCase (intercalate [SPACE] ws)
  = intercalate [SPACE] (map toLowerCase ws).
Proof.
  induction ws as [|w ws IH]; [reflexivity|].
  destruct ws as [|w' ws'].
  - simpl. now rewrite !app_nil_r.
  - rewrite intercalate_two. cbn [map]. rewrite intercalate_two.
    rewrite !toLowerCase_app. now rewrite IH.
Qed.

Lemma toLowerCase_word w :
  is_word_of w = true -> is_word_of (toLowerCase w) = true.
Proof.
  unfold is_word_of. intros H. apply andb_true_iff in H as [Hn Hs].
  apply andb_true_iff. split.
  - destruct w; [discriminate | reflexivity].
  - unfold toLowerCase. rewrite forallb_forall in *.
    intros c Hc. apply in_map_iff in Hc as [a [<- Ha]].
    unfold is_nonspace. rewrite is_space_lower_unit. now apply Hs.
Qed.

Lemma tokens_are_words str :
  Forall (fun w => is_word_of w = true) (tokens str).
Proof.
  unfold tokens. apply Forall_map.
  eapply Forall_impl; [|apply words_are_words].
  apply toLowerCase_word.
Qed.

(** The lower-cased text of [toSentence] is the token sequence, one space
    apart. *)
Lemma lower_spaced_tokens str :
  toLowerCase (spaced str) = intercalate [SPACE] (tokens str).
Proof.
  now rewrite spaced_scan, squeeze_words, toLowerCase_intercalate.
Qed.

(** [toSentence] joins the tokens with the separator. *)
Lemma toSentence_tokens str sep :
  forallb (fun c => negb (N.eqb c DOLLAR)) sep = true ->
  toSentence str sep = intercalate sep (tokens str).
Proof.
  intros H. unfold toSentence.
  rewrite replace_join_runs by exact H.
  rewrite lower_spaced_tokens.
  apply join_runs_intercalate, tokens_are_words.
Qed.

Lemma toSentence_default str :
  toSentence str default_separator = intercalate [SPACE] (tokens str).
Proof. now apply toSentence_tokens. Qed.

(** ** Boundaries are local *)

(** A unit that is no digit cuts the digit pass in two. *)
Lemma pad_digits_app_nondigit b u c v :
  is_digit c = false ->
  pad_digits b (u ++ c :: v) = pad_digits b u ++ c :: pad_digits false v.
Proof.
  intros Hc. revert b. induction u as [|a u IH]; intros b; simpl.
  - rewrite Hc. now destruct b.
  - destruct (is_digit a); rewrite IH; destruct b; reflexivity.
Qed.

(** A unit that is no upper-case letter cuts the camel pass in two. *)
Lemma camel_split_app u v :
  match v with d :: _ => is_upper d | [] => false end = false ->
  camel_split (u ++ v) = camel_split u ++ camel_split v.
Proof.
  intros Hv. induction u as [|a u IH]; [reflexivity|].
  cbn [app camel_split]. rewrite IH.
  destruct u as [|a' u'].
  - cbn [app]. rewrite Hv, andb_false_r. reflexivity.
  - cbn [app]. now destruct (is_lower a && is_upper a').
Qed.

Lemma camel_split_cons_nonlower c v :
  is_lower c = false -> camel_split (c :: v) = c :: camel_split v.
Proof. intros Hc. cbn [camel_split]. now rewrite Hc. Qed.

Lemma blank_app u v : blank (u ++ v) = blank u ++ blank v.
Proof. apply map_app. Qed.

Lemma plain_not_digit c :
  negb (is_letter c) && negb (is_digit c) = true -> is_digit c = false.
Proof.
  intros H. apply andb_true_iff in H as [_ H]. now apply negb_true_iff.
Qed.

Lemma plain_not_lower c :
  negb (is_letter c) && negb (is_digit c) = true -> is_lower c = false.
Proof.
  intros H. apply andb_true_iff in H as [H _]. apply negb_true_iff in H.
  unfold is_letter in H. now apply orb_false_iff in H.
Qed.

Lemma plain_not_upper c :
  negb (is_letter c) && negb (is_digit c) = true -> is_upper c = false.
Proof.
  intros H. apply andb_true_iff in H as [H _]. apply negb_true_iff in H.
  unfold is_letter in H. now apply orb_false_iff in H.
Qed.

(** A unit that is neither a letter nor a digit is a boundary: the marked
    text on its left and on its right do not depend on each other. *)
Lemma boundaries_app_plain u c v :
  negb (is_letter c) && negb (is_digit c) = true ->
  boundaries (u ++ c :: v) = boundaries u ++ SPACE :: boundaries v.
Proof.
  intros Hc. unfold boundaries.
  rewrite pad_digits_app_nondigit by now apply plain_not_digit.
  rewrite camel_split_app by now apply plain_not_upper.
  rewrite camel_split_cons_nonlower by now apply plain_not_lower.
  rewrite blank_app. cbn [blank map]. now rewrite blank_unit_plain.
Qed.

Lemma tokens_app_plain u c v :
  negb (is_letter c) && negb (is_digit c) = true ->
  tokens (u ++ c :: v) = tokens u ++ tokens v.
Proof.
  intros Hc. unfold tokens. rewrite boundaries_app_plain by exact Hc.
  rewrite words_app_space by apply is_space_SPACE. apply map_app.
Qed.

Lemma tokens_nil : tokens [] = [].
Proof. reflexivity. Qed.

Lemma tokens_cons_plain c v :
  negb (is_letter c) && negb (is_digit c) = true ->
  tokens (c :: v) = tokens v.
Proof.
  intros Hc. change (c :: v) with ([] ++ c :: v).
  now rewrite tokens_app_plain.
Qed.

Lemma tokens_app_sep u sep v :
  sep <> [] ->
  forallb (fun c => negb (is_letter c) && negb (is_digit c)) sep = true ->
  tokens (u ++ sep ++ v) = tokens u ++ tokens v.
Proof.
  intros Hne Hsep. destruct sep as [|c sep]; [congruence|].
  simpl in Hsep. apply andb_true_iff in Hsep as [Hc Hsep].
  cbn [app]. rewrite tokens_app_plain by exact Hc. f_equal.
  clear Hne Hc. induction sep as [|a sep IH]; [reflexivity|].
  simpl in Hsep. apply andb_true_iff in Hsep as [Ha Hsep].
  cbn [app]. rewrite tokens_cons_plain by exact Ha. now apply IH.
Qed.

(** An input without letters and digits has no tokens. *)
Lemma tokens_plain str :
  forallb (fun c => negb (is_letter c) && negb (is_digit c)) str = true ->
  tokens str = [].
Proof.
  induction str as [|c t IH]; [reflexivity|]. simpl.
  intros H. apply andb_true_iff in H as [Hc Ht].
  rewrite tokens_cons_plain by exact Hc. now apply IH.
Qed.

Lemma tokens_intercalate sep ws :
  sep <> [] ->
  forallb (fun c => negb (is_letter c) && negb (is_digit c)) sep = true ->
  tokens (intercalate sep ws) = flat_map tokens ws.
Proof.
  intros Hne Hsep. induction ws as [|w ws IH]; [reflexivity|].
  destruct ws as [|w' ws'].
  - simpl. now rewrite !app_nil_r.
  - rewrite intercalate_two. rewrite tokens_app_sep by assumption.
    rewrite IH. reflexivity.
Qed.

(** ** Tokens are lower-case words or digit runs *)

Lemma chain_cons a b t : chain (a :: b :: t) = sep_ok a b && chain (b :: t).
Proof. reflexivity. Qed.

Lemma sep_ok_SPACE_l b : sep_ok SPACE b = true.
Proof. reflexivity. Qed.

Lemma sep_ok_SPACE_r a : sep_ok a SPACE = true.
Proof.
  unfold sep_ok. replace (is_SPACE SPACE) with true by reflexivity.
  now rewrite orb_true_r.
Qed.

Lemma sep_ok_same a b : is_digit a = is_digit b -> sep_ok a b = true.
Proof.
  intros H. unfold sep_ok. rewrite H, eqb_reflx. apply orb_true_r.
Qed.

(** The digit pass leaves digits and non-digits apart. *)
Lemma pad_digits_chain s :
  forall b,
    chain (pad_digits b s) = true
    /\ match pad_digits b s with
       | h :: _ => is_SPACE h = true \/ is_digit h = b
       | [] => True
       end.
Proof.
  induction s as [|c t IH]; intros b.
  - destruct b; simpl; auto.
  - cbn [pad_digits]. destruct (is_digit c) eqn:Hc.
    + destruct (IH true) as [Hch Hh].
      assert (Hc1 : chain (c :: pad_digits true t) = true).
      { destruct (pad_digits true t) as [|h r]; [reflexivity|].
        rewrite chain_cons, Hch, andb_true_r.
        destruct Hh as [Hh | Hh].
        - apply is_SPACE_eq in Hh. subst. apply sep_ok_SPACE_r.
        - apply sep_ok_same. congruence. }
      destruct b; cbn [app].
      * split; [exact Hc1 | now right].
      * split; [|now left]. now rewrite chain_cons, Hc1.
    + destruct (IH false) as [Hch Hh].
      assert (Hc1 : chain (c :: pad_digits false t) = true).
      { destruct (pad_digits false t) as [|h r]; [reflexivity|].
        rewrite chain_cons, Hch, andb_true_r.
        destruct Hh as [Hh | Hh].
        - apply is_SPACE_eq in Hh. subst. apply sep_ok_SPACE_r.
        - apply sep_ok_same. congruence. }
      destruct b; cbn [app].
      * split; [|now left]. now rewrite chain_cons, Hc1.
      * split; [exact Hc1 | now right].
Qed.

Lemma chain_tail a t : chain (a :: t) = true -> chain t = true.
Proof.
  destruct t as [|b t]; [reflexivity|]. rewrite chain_cons.
  intros H. now apply andb_true_iff in H.
Qed.

Lemma camel_split_chain s : chain s = true -> chain (camel_split s) = true.
Proof.
  induction s as [|c t IH]; [reflexivity|].
  intros H. pose proof (chain_tail _ _ H) as Ht. specialize (IH Ht).
  destruct t as [|d t'].
  - cbn [camel_split]. rewrite andb_false_r. reflexivity.
  - rewrite chain_cons in H. apply andb_true_iff in H as [Hcd _].
    assert (Hd : exists r, camel_split (d :: t') = d :: r).
    { cbn [camel_split].
      destruct (is_lower d &&
                match t' with d0 :: _ => is_upper d0 | [] => false end);
        eauto. }
    destruct Hd as [r Hr]. cbn [camel_split] in IH |- *.
    cbn [camel_split] in Hr. rewrite Hr in *.
    destruct (is_lower c && is_upper d).
    + rewrite !chain_cons, sep_ok_SPACE_r, sep_ok_SPACE_l. exact IH.
    + now rewrite chain_cons, Hcd.
Qed.

Lemma sep_ok_blank a b :
  sep_ok a b = true -> sep_ok (blank_unit a) (blank_unit b) = true.
Proof.
  unfold sep_ok. rewrite !is_digit_blank_unit. intros H.
  apply orb_true_iff in H as [H | H].
  - apply orb_true_iff in H as [H | H].
    + apply is_SPACE_eq in H. subst. reflexivity.
    + apply is_SPACE_eq in H. subst.
      change (blank_unit SPACE) with SPACE. cbn [is_SPACE].
      replace (is_SPACE SPACE) with true by reflexivity.
      now rewrite orb_true_r.
  - rewrite H. apply orb_true_r.
Qed.

Lemma blank_chain s : chain s = true -> chain (blank s) = true.
Proof.
  induction s as [|a t IH]; [reflexivity|].
  intros H. pose proof (chain_tail _ _ H) as Ht.
  destruct t as [|b t']; [reflexivity|].
  rewrite chain_cons in H. apply andb_true_iff in H as [Hab _].
  cbn [blank map] in *. rewrite chain_cons.
  rewrite sep_ok_blank by exact Hab. now apply IH.
Qed.

Lemma boundaries_chain str : chain (boundaries str) = true.
Proof.
  unfold boundaries. apply blank_chain, camel_split_chain, pad_digits_chain.
Qed.

Lemma boundaries_alnum_or_space str :
  forallb is_alnum_or_space (boundaries str) = true.
Proof.
  unfold boundaries, blank. apply forallb_forall. intros c Hc.
  apply in_map_iff in Hc as [a [<- _]]. apply blank_unit_ok.
Qed.

Lemma words_head d t :
  is_space d = false -> exists w ws, words (d :: t) = (d :: w) :: ws.
Proof.
  intros Hd. rewrite words_cons_nonspace by exact Hd.
  destruct t as [|e t']; [eauto|].
  destruct (is_space e); [eauto|].
  destruct (words (e :: t')); eauto.
Qed.

Lemma uniform_cons c d w :
  is_SPACE c = false -> is_SPACE d = false -> sep_ok c d = true ->
  uniform (d :: w) = true -> uniform (c :: d :: w) = true.
Proof.
  unfold sep_ok, uniform. intros -> -> H. simpl in *.
  apply eqb_prop in H. rewrite H.
  now destruct (is_digit d).
Qed.

Lemma chain_words s :
  chain s = true -> Forall (fun w => uniform w = true) (words s).
Proof.
  induction s as [|c t IH]; [constructor|].
  intros H. pose proof (chain_tail _ _ H) as Ht. specialize (IH Ht).
  destruct (is_space c) eqn:Hc.
  - now rewrite words_cons_space.
  - assert (Hone : uniform [c] = true)
      by (unfold uniform; simpl; now destruct (is_digit c)).
    destruct t as [|d t'].
    + rewrite words_cons_nonspace by exact Hc. now constructor.
    + rewrite words_cons_nonspace by exact Hc.
      destruct (is_space d) eqn:Hd; [now constructor|].
      destruct (words_head d t' Hd) as [w [ws Hw]]. rewrite Hw in *.
      inversion IH as [|? ? Hu Hus]; subst. constructor; [|exact Hus].
      rewrite chain_cons in H. apply andb_true_iff in H as [Hcd _].
      apply uniform_cons; auto using nonspace_not_SPACE.
Qed.

Lemma concat_words s : List.concat (words s) = filter is_nonspace s.
Proof.
  induction s as [|c t IH]; [reflexivity|].
  cbn [filter]. unfold is_nonspace at 1.
  destruct (is_space c) eqn:Hc; cbn [negb].
  - now rewrite words_cons_space.
  - rewrite words_cons_nonspace by exact Hc.
    destruct t as [|d t']; [reflexivity|].
    destruct (is_space d) eqn:Hd.
    + cbn [List.concat app]. now rewrite IH.
    + destruct (words_head d t' Hd) as [w [ws Hw]]. rewrite Hw in *.
      cbn [List.concat app] in *. now rewrite IH.
Qed.

Lemma words_forallb p s :
  forallb p s = true -> Forall (fun w => forallb p w = true) (words s).
Proof.
  intros H. apply Forall_forall. intros w Hw.
  apply forallb_forall. intros c Hc. rewrite forallb_forall in H.
  apply H. assert (Hin : In c (List.concat (words s)))
    by (apply in_concat; eauto).
  rewrite concat_words in Hin. now apply filter_In in Hin.
Qed.

Lemma lower_unit_letter c :
  is_letter c = true -> is_lower (lower_unit c) = true.
Proof.
  intros H. apply letter_range in H.
  unfold lower_unit, is_upper, is_lower, between.
  destruct H; settle_cmp.
Qed.

Lemma lower_unit_not_upper c : is_upper c = false -> lower_unit c = c.
Proof. intros H. unfold lower_unit. now rewrite H. Qed.

Lemma toLowerCase_id s :
  forallb (fun c => negb (is_upper c)) s = true -> toLowerCase s = s.
Proof.
  induction s as [|c t IH]; [reflexivity|]. simpl.
  intros H. apply andb_true_iff in H as [Hc Ht].
  apply negb_true_iff in Hc.
  now rewrite lower_unit_not_upper, IH.
Qed.

Lemma forallb_impl (p q : code_unit -> bool) s :
  (forall c, p c = true -> q c = true) ->
  forallb p s = true -> forallb q s = true.
Proof.
  intros Hpq H. rewrite forallb_forall in *. auto.
Qed.

Lemma word_unit_letter c :
  is_alnum_or_space c = true -> is_space c = false ->
  is_digit c = false -> is_letter c = true.
Proof.
  unfold is_alnum_or_space. intros H Hs Hd.
  apply nonspace_not_SPACE in Hs. unfold is_SPACE in Hs.
  rewrite Hd, Hs, !orb_false_r in H. exact H.
Qed.

Lemma word_to_token w :
  is_word_of w = true -> uniform w = true ->
  forallb is_alnum_or_space w = true ->
  is_token (toLowerCase w) = true.
Proof.
  unfold is_word_of, uniform, is_token. intros Hw Hu Ha.
  apply andb_true_iff in Hw as [Hn Hs].
  apply andb_true_iff. split; [destruct w; [discriminate|reflexivity]|].
  apply orb_true_iff in Hu as [Hd | Hnd].
  - apply orb_true_iff. right.
    rewrite toLowerCase_id; [exact Hd|].
    eapply forallb_impl; [|exact Hd].
    intros c Hc. now rewrite digit_not_upper.
  - apply orb_true_iff. left.
    unfold toLowerCase. rewrite forallb_forall in *.
    intros c Hc. apply in_map_iff in Hc as [a [<- Hin]].
    apply lower_unit_letter, word_unit_letter; auto.
    + specialize (Hs a Hin). unfold is_nonspace in Hs.
      now apply negb_true_iff.
    + specialize (Hnd a Hin). now apply negb_true_iff.
Qed.

(** Every token is a run of lower-case letters or a run of digits. *)
Lemma tokens_are_tokens str :
  Forall (fun w => is_token w = true) (tokens str).
Proof.
  unfold tokens. apply Forall_map. apply Forall_forall. intros w Hw.
  pose proof (words_are_words (boundaries str)) as H1.
  pose proof (chain_words _ (boundaries_chain str)) as H2.
  pose proof (words_forallb _ _ (boundaries_alnum_or_space str)) as H3.
  rewrite Forall_forall in H1, H2, H3.
  apply word_to_token; auto.
Qed.

Lemma token_is_word w : is_token w = true -> is_word_of w = true.
Proof.
  unfold is_token, is_word_of. intros H.
  apply andb_true_iff in H as [Hn H]. rewrite Hn. simpl.
  apply orb_true_iff in H as [H | H]; eapply forallb_impl; try exact H;
    intros c Hc; unfold is_nonspace.
  - now rewrite lower_not_space.
  - now rewrite digit_not_space.
Qed.

(** *** A token is its own token sequence *)

Lemma pad_digits_no_digit s :
  forallb (fun c => negb (is_digit c)) s = true -> pad_digits false s = s.
Proof.
  induction s as [|c t IH]; [reflexivity|]. simpl.
  intros H. apply andb_true_iff in H as [Hc Ht].
  apply negb_true_iff in Hc. rewrite Hc. simpl. now rewrite IH.
Qed.

Lemma pad_digits_run_true d v :
  forallb is_digit d = true ->
  pad_digits true (d ++ v) = d ++ pad_digits true v.
Proof.
  induction d as [|c t IH]; [reflexivity|]. simpl.
  intros H. apply andb_true_iff in H as [Hc Ht].
  rewrite Hc. simpl. now rewrite IH.
Qed.

Lemma pad_digits_run d v :
  nonempty d = true -> forallb is_digit d = true ->
  pad_digits false (d ++ v) = SPACE :: d ++ pad_digits true v.
Proof.
  destruct d as [|c t]; [discriminate|]. simpl.
  intros _ H. apply andb_true_iff in H as [Hc Ht].
  rewrite Hc. simpl. now rewrite pad_digits_run_true.
Qed.

Lemma pad_digits_true_nondigit v :
  starts_with_digit v = false ->
  pad_digits true v = SPACE :: pad_digits false v.
Proof.
  destruct v as [|c t]; [reflexivity|]. simpl. now intros ->.
Qed.

Lemma camel_split_no_upper s :
  forallb (fun c => negb (is_upper c)) s = true -> camel_split s = s.
Proof.
  induction s as [|c t IH]; [reflexivity|]. cbn [forallb camel_split].
  intros H. apply andb_true_iff in H as [Hc Ht].
  rewrite IH by exact Ht. destruct t as [|d t'].
  - now rewrite andb_false_r.
  - cbn [forallb] in Ht. apply andb_true_iff in Ht as [Hd _].
    apply negb_true_iff in Hd. now rewrite Hd, andb_false_r.
Qed.

Lemma camel_split_no_lower d r :
  forallb (fun c => negb (is_lower c)) d = true ->
  camel_split (d ++ r) = d ++ camel_split r.
Proof.
  induction d as [|c t IH]; [reflexivity|]. cbn [forallb app].
  intros H. apply andb_true_iff in H as [Hc Ht].
  apply negb_true_iff in Hc.
  rewrite camel_split_cons_nonlower by exact Hc. now rewrite IH.
Qed.

Lemma blank_id s : forallb is_alnum_or_space s = true -> blank s = s.
Proof.
  induction s as [|c t IH]; [reflexivity|]. simpl.
  intros H. apply andb_true_iff in H as [Hc Ht].
  now rewrite blank_unit_id, IH.
Qed.

Lemma lower_alnum c : is_lower c = true -> is_alnum_or_space c = true.
Proof.
  intros H. unfold is_alnum_or_space, is_letter. now rewrite H.
Qed.

Lemma digit_alnum c : is_digit c = true -> is_alnum_or_space c = true.
Proof.
  intros H. unfold is_alnum_or_space. rewrite H. now rewrite orb_true_r.
Qed.

Lemma boundaries_lower w :
  forallb is_lower w = true -> boundaries w = w.
Proof.
  intros H. unfold boundaries.
  rewrite pad_digits_no_digit
    by (eapply forallb_impl; [|exact H]; intros c Hc;
        now rewrite lower_not_digit).
  rewrite camel_split_no_upper
    by (eapply forallb_impl; [|exact H]; intros c Hc;
        now rewrite lower_not_upper).
  apply blank_id. eapply forallb_impl; [|exact H]. apply lower_alnum.
Qed.

Lemma boundaries_digits w :
  nonempty w = true -> forallb is_digit w = true ->
  boundaries w = SPACE :: w ++ [SPACE].
Proof.
  intros Hn H. unfold boundaries.
  rewrite <- (app_nil_r w) at 1. rewrite pad_digits_run by assumption.
  cbn [pad_digits].
  change (SPACE :: w ++ [SPACE]) with ([SPACE] ++ w ++ [SPACE]).
  rewrite camel_split_no_lower by reflexivity.
  rewrite camel_split_no_lower
    by (eapply forallb_impl; [|exact H]; intros c Hc;
        now rewrite digit_not_lower).
  cbn [camel_split]. rewrite andb_false_r.
  apply blank_id. cbn [app forallb]. rewrite forallb_app.
  rewrite (forallb_impl is_digit is_alnum_or_space w digit_alnum H).
  reflexivity.
Qed.

Lemma tokens_token w : is_token w = true -> tokens w = [w].
Proof.
  intros Hw. pose proof (token_is_word _ Hw) as Hword.
  unfold is_token in Hw. apply andb_true_iff in Hw as [Hn H].
  unfold tokens. apply orb_true_iff in H as [H | H].
  - rewrite boundaries_lower by exact H.
    rewrite words_word by exact Hword. cbn [map].
    rewrite toLowerCase_id; [reflexivity|].
    eapply forallb_impl; [|exact H]. intros c Hc.
    now rewrite lower_not_upper.
  - rewrite boundaries_digits by assumption.
    rewrite words_cons_space by apply is_space_SPACE.
    rewrite words_app_space by apply is_space_SPACE.
    rewrite words_word by exact Hword. cbn [words fields filter app map].
    rewrite toLowerCase_id; [reflexivity|].
    eapply forallb_impl; [|exact H]. intros c Hc.
    now rewrite digit_not_upper.
Qed.

Lemma flat_map_tokens ws :
  Forall (fun w => is_token w = true) ws -> flat_map tokens ws = ws.
Proof.
  induction 1 as [|w ws Hw Hws IH]; [reflexivity|].
  cbn [flat_map]. now rewrite tokens_token, IH.
Qed.

(** ** The words of a normalized string are the tokens *)

Lemma words_intercalate ws :
  Forall (fun w => is_word_of w = true) ws ->
  words (intercalate [SPACE] ws) = ws.
Proof.
  induction 1 as [|w ws Hw Hws IH]; [reflexivity|].
  destruct ws as [|w' ws'].
  - simpl. rewrite app_nil_r. now apply words_word.
  - rewrite intercalate_two. cbn [app].
    rewrite words_app_space by apply is_space_SPACE.
    rewrite IH, words_word by exact Hw. reflexivity.
Qed.

Lemma words_toSentence str :
  words (toSentence str default_separator) = tokens str.
Proof.
  rewrite toSentence_default. apply words_intercalate, tokens_are_words.
Qed.

(** ** Normalizing an empty string *)

Lemma toSentence_no_tokens str sep :
  tokens str = [] -> toSentence str sep = [].
Proof.
  intros H. unfold toSentence. rewrite lower_spaced_tokens, H. reflexivity.
Qed.

(** ** The units of a normalized string *)

Lemma intercalate_units (p : code_unit -> bool) sep ws :
  forallb p sep = true ->
  Forall (fun w => forallb p w = true) ws ->
  forallb p (intercalate sep ws) = true.
Proof.
  intros Hsep. induction 1 as [|w ws Hw Hws IH]; [reflexivity|].
  destruct ws as [|w' ws'].
  - simpl. now rewrite app_nil_r.
  - rewrite intercalate_two, !forallb_app. rewrite Hw, Hsep.
    exact IH.
Qed.

Lemma token_units w :
  is_token w = true ->
  forallb (fun c => is_lower c || is_digit c) w = true.
Proof.
  unfold is_token. intros H. apply andb_true_iff in H as [_ H].
  apply orb_true_iff in H as [H | H]; eapply forallb_impl; try exact H;
    intros c Hc; rewrite Hc; auto using orb_true_r.
Qed.

(** With the default separator the result is made of lower-case letters,
    digits and spaces. *)
Lemma toSentence_default_ascii str :
  forallb (fun c => is_lower c || is_digit c || is_SPACE c)
    (toSentence str default_separator) = true.
Proof.
  rewrite toSentence_default. apply intercalate_units; [reflexivity|].
  eapply Forall_impl; [|apply tokens_are_tokens].
  intros w Hw. apply token_units in Hw.
  eapply forallb_impl; [|exact Hw]. intros c Hc. now rewrite Hc.
Qed.

(** With the underscore as separator (the argument of [toUpperCase] in
    [toConstantCase]) it is made of lower-case letters, digits and
    underscores. *)
Lemma toSentence_snake_ascii str :
  forallb (fun c => is_lower c || is_digit c || N.eqb c 95)
    (toSentence str (lit "_")) = true.
Proof.
  rewrite toSentence_tokens by reflexivity.
  apply intercalate_units; [reflexivity|].
  eapply Forall_impl; [|apply tokens_are_tokens].
  intros w Hw. apply token_units in Hw.
  eapply forallb_impl; [|exact Hw]. intros c Hc. now rewrite Hc.
Qed.

(** The text [toSentence] hands to [toLowerCase] is made of ASCII
    letters, digits and spaces. *)
Lemma join_runs_units (p : code_unit -> bool) sep s :
  forallb p sep = true -> forallb p s = true ->
  forall b, forallb p (join_runs sep b s) = true.
Proof.
  intros Hsep. induction s as [|c t IH]; [reflexivity|].
  cbn [forallb join_runs]. intros H b.
  apply andb_true_iff in H as [Hc Ht].
  destruct (is_space c).
  - rewrite forallb_app, IH by exact Ht. destruct b; [reflexivity|].
    now rewrite Hsep.
  - cbn [forallb]. now rewrite Hc, IH.
Qed.

Lemma trim_end_units (p : code_unit -> bool) s :
  forallb p s = true -> forallb p (trim_end s) = true.
Proof.
  induction s as [|c t IH]; [reflexivity|].
  cbn [forallb trim_end]. intros H.
  apply andb_true_iff in H as [Hc Ht]. destruct t as [|d t'].
  - destruct (is_SPACE c); [reflexivity|]. cbn [forallb]. now rewrite Hc.
  - cbn [forallb]. rewrite Hc. now apply IH.
Qed.

Lemma lower_arg_ascii str :
  forallb is_alnum_or_space (spaced str) = true.
Proof.
  rewrite spaced_scan. unfold trim, collapse.
  pose proof (join_runs_units is_alnum_or_space [SPACE] (boundaries str)
                eq_refl (boundaries_alnum_or_space str) false) as H.
  destruct (join_runs [SPACE] false (boundaries str)) as [|c t];
    [reflexivity|].
  destruct (is_SPACE c).
  - cbn [forallb] in H. apply andb_true_iff in H as [_ H].
    now apply trim_end_units.
  - now apply trim_end_units.
Qed.

(** ** Separators *)

Lemma plain_no_dollar sep :
  forallb plain_unit sep = true ->
  forallb (fun c => negb (N.eqb c DOLLAR)) sep = true.
Proof.
  apply forallb_impl. unfold plain_unit. intros c H.
  now apply andb_true_iff in H as [_ H].
Qed.

Lemma plain_no_alnum sep :
  forallb plain_unit sep = true ->
  forallb (fun c => negb (is_letter c) && negb (is_digit c)) sep = true.
Proof.
  apply forallb_impl. unfold plain_unit. intros c H.
  now apply andb_true_iff in H as [H _].
Qed.

Lemma substitute_spaces_app sep u v :
  substitute_spaces sep (u ++ v)
  = substitute_spaces sep u ++ substitute_spaces sep v.
Proof. apply flat_map_app. Qed.

Lemma substitute_spaces_word sep w :
  is_word_of w = true -> substitute_spaces sep w = w.
Proof.
  unfold is_word_of. intros H. apply andb_true_iff in H as [_ H].
  induction w as [|c t IH]; [reflexivity|].
  cbn [forallb] in H. apply andb_true_iff in H as [Hc Ht].
  unfold is_nonspace in Hc. apply negb_true_iff in Hc.
  unfold substitute_spaces in *. cbn [flat_map].
  rewrite (nonspace_not_SPACE _ Hc). cbn [app]. now rewrite IH.
Qed.

Lemma substitute_spaces_intercalate sep ws :
  Forall (fun w => is_word_of w = true) ws ->
  substitute_spaces sep (intercalate [SPACE] ws) = intercalate sep ws.
Proof.
  induction 1 as [|w ws Hw Hws IH]; [reflexivity|].
  destruct ws as [|w' ws'].
  - simpl. rewrite !app_nil_r. now apply substitute_spaces_word.
  - rewrite !intercalate_two, !substitute_spaces_app.
    rewrite substitute_spaces_word by exact Hw. rewrite IH.
    unfold substitute_spaces at 1. cbn [flat_map].
    replace (is_SPACE SPACE) with true by reflexivity.
    now rewrite app_nil_r.
Qed.

(** The separator law, for a separator without a dollar sign. *)
Lemma separator_substitution str sep :
  forallb (fun c => negb (N.eqb c DOLLAR)) sep = true ->
  toSentence str sep
  = substitute_spaces sep (toSentence str default_separator).
Proof.
  intros H. rewrite toSentence_default, toSentence_tokens by exact H.
  symmetry. apply substitute_spaces_intercalate, tokens_are_words.
Qed.

(** The separator law for the renderers of the enumeration that pass a
    separator of their own. *)
Lemma separator_substitution_renderers str :
  let n := toSentence str default_separator in
  toCase str (Member CaseConverterEnum.DotCase)
    = substitute_spaces (lit ".") n
  /\ toCase str (Member CaseConverterEnum.KebabCase)
    = substitute_spaces (lit "-") n
  /\ toCase str (Member CaseConverterEnum.LowerCase)
    = substitute_spaces [] n
  /\ toCase str (Member CaseConverterEnum.PathCase)
    = substitute_spaces (lit "/") n
  /\ toCase str (Member CaseConverterEnum.SnakeCase)
    = substitute_spaces (lit "_") n
  /\ toCase str (Member CaseConverterEnum.ConstantCase)
    = toUpperCase (substitute_spaces (lit "_") n).
Proof.
  cbn [toCase]. unfold toConstantCase.
  repeat split; try (now apply separator_substitution).
  f_equal. now apply separator_substitution.
Qed.

(** ** Normalizing twice *)

Lemma intercalate_nil ws : intercalate [] ws = List.concat ws.
Proof.
  induction ws as [|w ws IH]; [reflexivity|].
  destruct ws as [|w' ws'].
  - simpl. reflexivity.
  - rewrite intercalate_two. cbn [app List.concat] in *. now rewrite IH.
Qed.

Lemma pad_digits_units (p : code_unit -> bool) s :
  p SPACE = true -> forallb p s = true ->
  forall b, forallb p (pad_digits b s) = true.
Proof.
  intros Hsp. induction s as [|c t IH]; intros H b.
  - destruct b; simpl; [now rewrite Hsp | reflexivity].
  - cbn [forallb] in H. apply andb_true_iff in H as [Hc Ht].
    cbn [pad_digits].
    destruct (is_digit c), b; cbn [app forallb];
      rewrite ?Hsp, ?Hc; cbn [andb]; now apply IH.
Qed.

Lemma filter_pad_digits s :
  forallb is_nonspace s = true ->
  forall b, filter is_nonspace (pad_digits b s) = s.
Proof.
  induction s as [|c t IH]; intros H b.
  - now destruct b.
  - cbn [forallb] in H. apply andb_true_iff in H as [Hc Ht].
    cbn [pad_digits].
    destruct (is_digit c), b; cbn [app filter];
      change (is_nonspace SPACE) with false; cbv iota;
      rewrite Hc, IH by exact Ht; reflexivity.
Qed.

Lemma concat_map_toLowerCase ws :
  List.concat (map toLowerCase ws) = toLowerCase (List.concat ws).
Proof. unfold toLowerCase. symmetry. apply concat_map. Qed.

(** A string of lower-case letters and digits is the concatenation of its
    own tokens. *)
Lemma concat_tokens_lower z :
  forallb (fun c => is_lower c || is_digit c) z = true ->
  List.concat (tokens z) = z.
Proof.
  intros H.
  assert (Hup : forallb (fun c => negb (is_upper c)) z = true).
  { eapply forallb_impl; [|exact H]. intros c Hc.
    apply orb_true_iff in Hc as [Hc | Hc].
    - now rewrite lower_not_upper.
    - now rewrite digit_not_upper. }
  assert (Han : forallb is_alnum_or_space z = true).
  { eapply forallb_impl; [|exact H]. intros c Hc.
    apply orb_true_iff in Hc as [Hc | Hc];
      auto using lower_alnum, digit_alnum. }
  assert (Hns : forallb is_nonspace z = true).
  { eapply forallb_impl; [|exact H]. intros c Hc. unfold is_nonspace.
    apply orb_true_iff in Hc as [Hc | Hc].
    - now rewrite lower_not_space.
    - now rewrite digit_not_space. }
  unfold tokens, boundaries.
  rewrite concat_map_toLowerCase, concat_words.
  rewrite camel_split_no_upper by now apply pad_digits_units.
  rewrite blank_id by now apply pad_digits_units.
  rewrite filter_pad_digits by exact Hns.
  now apply toLowerCase_id.
Qed.

Lemma concat_units (p : code_unit -> bool) ws :
  Forall (fun w => forallb p w = true) ws ->
  forallb p (List.concat ws) = true.
Proof.
  induction 1 as [|w ws Hw Hws IH]; [reflexivity|].
  cbn [List.concat]. now rewrite forallb_app, Hw, IH.
Qed.

Lemma toSentence_twice str sep :
  forallb plain_unit sep = true ->
  toSentence (toSentence str sep) sep = toSentence str sep.
Proof.
  intros Hsep. pose proof (plain_no_dollar _ Hsep) as Hd.
  pose proof (plain_no_alnum _ Hsep) as Ha.
  rewrite (toSentence_tokens str) by exact Hd.
  rewrite toSentence_tokens by exact Hd.
  destruct sep as [|c sep'].
  - (* without a separator the tokens run together *)
    rewrite !intercalate_nil. apply concat_tokens_lower, concat_units.
    eapply Forall_impl; [|apply tokens_are_tokens].
    apply token_units.
  - f_equal. rewrite tokens_intercalate by (assumption || discriminate).
    apply flat_map_tokens, tokens_are_tokens.
Qed.

(** ** Digit runs *)

Lemma pad_digits_app_state a v :
  forall b,
    digit_state b a = false ->
    pad_digits b (a ++ v) = pad_digits b a ++ pad_digits false v.
Proof.
  induction a as [|c t IH]; intros b H.
  - simpl in H. subst. reflexivity.
  - cbn [digit_state] in H. cbn [app pad_digits].
    destruct (is_digit c); rewrite IH by exact H; now rewrite app_assoc.
Qed.

Lemma boundaries_digit_run a d b :
  nonempty d = true -> forallb is_digit d = true ->
  digit_state false a = false -> starts_with_digit b = false ->
  boundaries (a ++ d ++ b)
  = boundaries a ++ SPACE :: d ++ SPACE :: boundaries b.
Proof.
  intros Hn Hd Ha Hb. unfold boundaries.
  assert (Hnl : forallb (fun c => negb (is_lower c)) d = true).
  { eapply forallb_impl; [|exact Hd]. intros c Hc.
    now rewrite digit_not_lower. }
  rewrite pad_digits_app_state by exact Ha.
  rewrite pad_digits_run by assumption.
  rewrite pad_digits_true_nondigit by exact Hb.
  rewrite camel_split_app by reflexivity.
  rewrite camel_split_cons_nonlower by reflexivity.
  rewrite camel_split_no_lower by exact Hnl.
  rewrite camel_split_cons_nonlower by reflexivity.
  rewrite blank_app. cbn [blank map]. fold (blank d).
  rewrite map_app. cbn [map].
  fold (blank d). fold (blank (camel_split (pad_digits false b))).
  rewrite (blank_id d)
    by (eapply forallb_impl; [|exact Hd]; apply digit_alnum).
  reflexivity.
Qed.

(** A maximal digit run of the input is one token of it. *)
Lemma tokens_digit_run a d b :
  nonempty d = true -> forallb is_digit d = true ->
  digit_state false a = false -> starts_with_digit b = false ->
  tokens (a ++ d ++ b) = tokens a ++ [d] ++ tokens b.
Proof.
  intros Hn Hd Ha Hb. unfold tokens.
  rewrite boundaries_digit_run by assumption.
  rewrite words_app_space by apply is_space_SPACE.
  rewrite words_app_space by apply is_space_SPACE.
  assert (Hw : is_word_of d = true).
  { apply token_is_word. unfold is_token. rewrite Hn, Hd.
    now rewrite orb_true_r. }
  rewrite (words_word d) by exact Hw.
  rewrite !map_app. cbn [map].
  rewrite (toLowerCase_id d); [reflexivity|].
  eapply forallb_impl; [|exact Hd]. intros c Hc.
  now rewrite digit_not_upper.
Qed.

(** ** Camel case *)

(** [.replace(/ (\w)/g, (_, $1) => $1.toUpperCase())] *)
Lemma camel_join_loop whole n :
  forall s pos,
    List.length s <= n ->
    replace_loop (Seq (Cls is_SPACE) (Group (Cls is_word)))
      (fun _ captures _ _ => toUpperCase (nth 0 captures []))
      whole 0 pos s
    = camel_join s.
Proof.
  induction n as [|n IH]; intros s pos Hlen.
  - destruct s; [reflexivity | simpl in Hlen; lia].
  - destruct s as [|c t]; [reflexivity|].
    cbn [replace_loop camel_join]. rewrite exec_space_word.
    simpl in Hlen. destruct t as [|d t'].
    + now rewrite (IH [] (S pos)) by (simpl; lia).
    + destruct (is_SPACE c && is_word d).
      * cbn [nth toUpperCase map app replace_loop]. simpl in Hlen.
        now rewrite IH by lia.
      * now rewrite IH by lia.
Qed.

Lemma toCamelCase_scan str :
  toCamelCase str = camel_join (toSentence str default_separator).
Proof.
  unfold toCamelCase, replace_g. now apply camel_join_loop with (n := List.length (toSentence str default_separator)).
Qed.

Lemma camel_join_no_space w :
  forallb (fun c => negb (is_SPACE c)) w = true -> camel_join w = w.
Proof.
  induction w as [|c t IH]; [reflexivity|].
  cbn [forallb camel_join]. intros H.
  apply andb_true_iff in H as [Hc Ht]. apply negb_true_iff in Hc.
  destruct t as [|d t']; [reflexivity|].
  rewrite Hc. cbn [andb]. now rewrite IH.
Qed.

Lemma camel_join_word w d r :
  forallb (fun c => negb (is_SPACE c)) w = true ->
  is_word d = true ->
  camel_join (w ++ SPACE :: d :: r) = w ++ upper_unit d :: camel_join r.
Proof.
  intros Hw Hd. induction w as [|c t IH].
  - cbn [app camel_join]. rewrite Hd. reflexivity.
  - cbn [forallb] in Hw. apply andb_true_iff in Hw as [Hc Ht].
    apply negb_true_iff in Hc. cbn [app camel_join].
    destruct (t ++ SPACE :: d :: r) eqn:E.
    + now destruct t.
    + rewrite Hc. cbn [andb]. now rewrite IH.
Qed.

Lemma token_no_space w :
  is_token w = true -> forallb (fun c => negb (is_SPACE c)) w = true.
Proof.
  intros H. apply token_is_word in H. unfold is_word_of in H.
  apply andb_true_iff in H as [_ H].
  eapply forallb_impl; [|exact H]. intros c Hc.
  unfold is_nonspace in Hc. apply negb_true_iff in Hc.
  now rewrite nonspace_not_SPACE.
Qed.

Lemma token_head_word w :
  is_token w = true -> exists d t, w = d :: t /\ is_word d = true.
Proof.
  intros H. pose proof (token_units _ H) as Hu.
  destruct w as [|d t]; [discriminate|].
  exists d, t. split; [reflexivity|].
  cbn [forallb] in Hu. apply andb_true_iff in Hu as [Hd _].
  apply orb_true_iff in Hd as [Hd | Hd];
    auto using lower_is_word, digit_is_word.
Qed.

Lemma camel_join_tokens ws :
  Forall (fun w => is_token w = true) ws ->
  forall w,
    forallb (fun c => negb (is_SPACE c)) w = true ->
    camel_join (intercalate [SPACE] (w :: ws))
    = w ++ List.concat (map upper_first ws).
Proof.
  induction 1 as [|w' ws Hw' Hws IH]; intros w Hw.
  - simpl. rewrite !app_nil_r. now apply camel_join_no_space.
  - rewrite intercalate_two.
    destruct (token_head_word _ Hw') as [d [t [-> Hd]]].
    rewrite intercalate_cons_unit. cbn [app].
    rewrite camel_join_word by assumption.
    rewrite IH.
    + reflexivity.
    + apply token_no_space in Hw'. cbn [forallb] in Hw'.
      now apply andb_true_iff in Hw' as [_ Hw'].
Qed.

(** Camel case on the token sequence: the first token as it is, every
    later token with its first unit upper-cased, nothing in between. *)
Lemma toCamelCase_tokens str :
  toCamelCase str =
    match tokens str with
    | [] => []
    | w :: ws => w ++ List.concat (map upper_first ws)
    end.
Proof.
  rewrite toCamelCase_scan, toSentence_default.
  pose proof (tokens_are_tokens str) as H.
  destruct (tokens str) as [|w ws]; [reflexivity|].
  inversion H as [|? ? Hw Hws]; subst.
  apply camel_join_tokens; [exact Hws | now apply token_no_space].
Qed.

(** Punctuation before and after an input does not change its tokens. *)
Lemma tokens_trim_plain p str q :
  forallb (fun c => negb (is_letter c) && negb (is_digit c)) p = true ->
  forallb (fun c => negb (is_letter c) && negb (is_digit c)) q = true ->
  tokens (p ++ str ++ q) = tokens str.
Proof.
  intros Hp Hq. induction p as [|c p IH].
  - cbn [app]. destruct q as [|c q]; [now rewrite app_nil_r|].
    cbn [forallb] in Hq. apply andb_true_iff in Hq as [Hc Hq].
    rewrite tokens_app_plain by exact Hc.
    rewrite (tokens_plain q) by exact Hq. apply app_nil_r.
  - cbn [forallb] in Hp. apply andb_true_iff in Hp as [Hc Hp].
    cbn [app]. rewrite tokens_cons_plain by exact Hc. now apply IH.
Qed.

Lemma toSentence_same_tokens x y sep :
  tokens x = tokens y -> toSentence x sep = toSentence y sep.
Proof.
  intros H. unfold toSentence. now rewrite !lower_spaced_tokens, H.
Qed.

(** ** The examples of the doc comments *)

Example docstring_examples :
  let river := lit "livesDown_by-the.River" in
  toSentence river default_separator = lit "lives down by the river"
  /\ toSentence river (lit "-") = lit "lives-down-by-the-river"
  /\ toSentence river (lit "_") = lit "lives_down_by_the_river"
  /\ toSentence river (lit "/") = lit "lives/down/by/the/river"
  /\ toCamelCase river = lit "livesDownByTheRiver"
  /\ toPascalCase river = lit "LivesDownByTheRiver"
  /\ toConstantCase river = lit "LIVES_DOWN_BY_THE_RIVER"
  /\ toTitleCase river = lit "Lives Down By The River"
  /\ toSentenceCase river = lit "Lives down by the river".
Proof. repeat split; vm_compute; reflexivity. Qed.

(** * The claims *)

(** C1.  On the input "livesDown_by-the.River", [toCase] with CamelCase
    returns "livesDownByTheRiver" and with ConstantCase returns
    "LIVES_DOWN_BY_THE_RIVER". *)
Theorem toCase_lives_down_by_the_river :
  toCase (lit "livesDown_by-the.River") (Member CaseConverterEnum.CamelCase)
  = lit "livesDownByTheRiver"
  /\ toCase (lit "livesDown_by-the.River")
       (Member CaseConverterEnum.ConstantCase)
     = lit "LIVES_DOWN_BY_THE_RIVER".
Proof. split; vm_compute; reflexivity. Qed.

(** C2.  The separator law says that [toSentence x s] is
    [toSentence x] with every boundary space replaced by [s].  The code
    passes [s] to [replace] as a replacement template, so the dollar
    patterns of a separator are expanded: with the separator "$&" the
    boundary stays a space, and with "$$" it becomes a single dollar
    sign, where the law asks for "a$&b" and "a$$b". *)
Theorem separator_dollar_pattern_expanded :
  toSentence (lit "a b") (lit "$&") = lit "a b"
  /\ substitute_spaces (lit "$&") (toSentence (lit "a b") default_separator)
     = lit "a$&b"
  /\ toSentence (lit "a b") (lit "$$") = lit "a$b"
  /\ substitute_spaces (lit "$$") (toSentence (lit "a b") default_separator)
     = lit "a$$b".
Proof. repeat split; vm_compute; reflexivity. Qed.

(** C3, as stated, fails: with the separator "1" the second call splits
    the separator off as a token of its own. *)
Lemma normalize_twice_digit_separator :
  toSentence (toSentence (lit "a b") (lit "1")) (lit "1")
  <> toSentence (lit "a b") (lit "1").
Proof. vm_compute. discriminate. Qed.

(** C3, amended.  For every string and every separator made of units
    that are neither ASCII letters nor digits nor dollar signs (the
    default space among them, and the empty separator), normalizing twice
    with that separator gives what normalizing once gives. *)
Theorem normalize_idempotent (x s : jstring) :
  forallb plain_unit s = true ->
  toSentence (toSentence x s) s = toSentence x s.
Proof. apply toSentence_twice. Qed.

Lemma normalize_idempotent_witness :
  forallb plain_unit (lit "-") = true
  /\ toSentence (toSentence (lit "livesDown_by-the.River") (lit "-")) (lit "-")
     = toSentence (lit "livesDown_by-the.River") (lit "-").
Proof.
  split; [reflexivity|].
  apply (normalize_idempotent (lit "livesDown_by-the.River") (lit "-")).
  reflexivity.
Defined.

(** C4.  A maximal run of digits of the input is one token of the
    result: when [d] is a non-empty run of digits, [a] does not end and
    [b] does not start with a digit, the words of the normalized
    [a ++ d ++ b] are those of [a], then [d] itself, then those of [b].
    In particular "abc123def" becomes "abc 123 def". *)
Theorem digit_run_is_one_token (a d b : jstring) :
  nonempty d = true -> forallb is_digit d = true ->
  digit_state false a = false -> starts_with_digit b = false ->
  words (toSentence (a ++ d ++ b) default_separator)
  = words (toSentence a default_separator) ++ [d]
      ++ words (toSentence b default_separator)
  /\ toSentence (lit "abc123def") default_separator = lit "abc 123 def".
Proof.
  intros Hn Hd Ha Hb. split.
  - rewrite !words_toSentence. now apply tokens_digit_run.
  - vm_compute. reflexivity.
Qed.

Lemma digit_run_is_one_token_witness :
  words (toSentence (lit "v1.rel" ++ lit "2024" ++ lit "-rc1") default_separator)
  = words (toSentence (lit "v1.rel") default_separator) ++ [lit "2024"]
      ++ words (toSentence (lit "-rc1") default_separator)
  /\ toSentence (lit "abc123def") default_separator = lit "abc 123 def".
Proof.
  apply (digit_run_is_one_token (lit "v1.rel") (lit "2024") (lit "-rc1"));
    reflexivity.
Defined.

(** C5.  Normalizing the empty string gives the empty string, whatever
    the separator; and an input without ASCII letters and digits
    normalizes to the empty string, whatever the separator: its
    punctuation leaves no empty tokens behind, so no separator shows up.
    Likewise such punctuation in front of or behind any input is trimmed
    away. *)
Theorem normalize_empty (x s : jstring) :
  forallb (fun c => negb (is_letter c) && negb (is_digit c)) x = true ->
  toSentence [] s = []
  /\ toSentence x s = []
  /\ forall y,
       toSentence (x ++ y) s = toSentence y s
       /\ toSentence (y ++ x) s = toSentence y s.
Proof.
  intros Hx. repeat split.
  - apply toSentence_no_tokens, tokens_plain, Hx.
  - apply toSentence_same_tokens.
    rewrite <- (app_nil_r (x ++ y)), <- app_assoc.
    now apply tokens_trim_plain.
  - apply toSentence_same_tokens.
    change (y ++ x) with ([] ++ y ++ x). now apply tokens_trim_plain.
Qed.

Lemma normalize_empty_witness :
  forallb (fun c => negb (is_letter c) && negb (is_digit c)) (lit "_-. !")
  = true
  /\ toSentence [] (lit "-") = []
  /\ toSentence (lit "_-. !") (lit "-") = []
  /\ forall y,
       toSentence (lit "_-. !" ++ y) (lit "-") = toSentence y (lit "-")
       /\ toSentence (y ++ lit "_-. !") (lit "-") = toSentence y (lit "-").
Proof.
  split; [reflexivity|].
  apply (normalize_empty (lit "_-. !") (lit "-")). reflexivity.
Defined.

(** C6.  With the default separator the result holds no underscore, no
    hyphen, no dot and no upper-case letter: each of its units is a
    lower-case ASCII letter, a digit or a space. *)
Theorem normalize_output_units (x : jstring) :
  Forall (fun c => c <> 95%N /\ c <> 45%N /\ c <> 46%N
                   /\ is_upper c = false
                   /\ is_lower c || is_digit c || is_SPACE c = true)
    (toSentence x default_separator).
Proof.
  pose proof (toSentence_default_ascii x) as H.
  rewrite forallb_forall in H. apply Forall_forall. intros c Hc.
  specialize (H c Hc). repeat split; try exact H;
    revert H; unfold_classes; split_cmp.
Qed.

(** C7.  With the selector [None] the input comes back as it is, unit
    for unit; and so it does for any value that is not a member of the
    enumeration. *)
Theorem toCase_none_identity (x : jstring) :
  toCase x (Member CaseConverterEnum.None) = x
  /\ forall v, toCase x (Foreign v) = x.
Proof. split; reflexivity. Qed.

(** C8.  Sentence case is the normalized string (space separator) with
    its first unit upper-cased and the remainder lower-cased. *)
Theorem toCase_sentence_case (x : jstring) :
  toCase x (Member CaseConverterEnum.SentenceCase)
  = capitalize (toSentence x default_separator).
Proof.
  cbn [toCase]. unfold toSentenceCase.
  now destruct (toSentence x default_separator).
Qed.

(** C9.  Camel case is the normalized string (space separator) in which
    every space followed by a word character is removed and that
    character upper-cased; the first token stays as it is, in lower
    case, and every later token starts with its upper-cased first unit. *)
Theorem toCase_camel_case (x : jstring) :
  toCase x (Member CaseConverterEnum.CamelCase)
  = camel_join (toSentence x default_separator)
  /\ toCase x (Member CaseConverterEnum.CamelCase)
     = match words (toSentence x default_separator) with
       | [] => []
       | w :: ws => w ++ List.concat (map upper_first ws)
       end
  /\ Forall (fun w => forallb (fun c => is_lower c || is_digit c) w = true)
       (words (toSentence x default_separator)).
Proof.
  cbn [toCase]. repeat split.
  - apply toCamelCase_scan.
  - rewrite words_toSentence. apply toCamelCase_tokens.
  - rewrite words_toSentence.
    eapply Forall_impl; [|apply tokens_are_tokens]. apply token_units.
Qed.

(** C10.  For every member of the enumeration, [toCase] of the empty
    string is the empty string. *)
Theorem toCase_empty (t : CaseConverterEnum.t) :
  toCase [] (Member t) = [].
Proof. destruct t; reflexivity. Qed.

(** * Further properties of the class *)

(** ** What normalization keeps *)

Lemma filter_alnum_pad_digits s :
  forall b, filter is_alnum (pad_digits b s) = filter is_alnum s.
Proof.
  induction s as [|c t IH]; intros b.
  - now destruct b.
  - cbn [pad_digits].
    destruct (is_digit c), b; cbn [app filter];
      change (is_alnum SPACE) with false; cbv iota;
      rewrite IH; reflexivity.
Qed.

Lemma filter_alnum_camel_split s :
  filter is_alnum (camel_split s) = filter is_alnum s.
Proof.
  induction s as [|c t IH]; [reflexivity|].
  cbn [camel_split].
  destruct (is_lower c && match t with d :: _ => is_upper d | [] => false end);
    cbn [filter]; change (is_alnum SPACE) with false; cbv iota;
    now rewrite IH.
Qed.

Lemma alnum_not_space c : is_alnum c = true -> is_space c = false.
Proof.
  unfold is_alnum. intros H. apply orb_true_iff in H as [H | H];
    auto using letter_not_space, digit_not_space.
Qed.

Lemma alnum_or_space_split c :
  is_alnum_or_space c = is_alnum c || N.eqb c SPACE.
Proof. reflexivity. Qed.

Lemma filter_nonspace_blank s :
  filter is_nonspace (blank s) = filter is_alnum s.
Proof.
  induction s as [|c t IH]; [reflexivity|].
  cbn [blank map filter]. fold (blank t). rewrite IH.
  unfold blank_unit, not_alnum_or_space. rewrite alnum_or_space_split.
  destruct (is_alnum c) eqn:Hc; cbn [orb negb].
  - unfold is_nonspace. now rewrite alnum_not_space.
  - destruct (N.eqb_spec c SPACE) as [-> | _]; reflexivity.
Qed.

(** The tokens, run together, are the letters and digits of the input in
    their order, lower-cased. *)
Lemma concat_tokens str :
  List.concat (tokens str) = toLowerCase (filter is_alnum str).
Proof.
  unfold tokens, boundaries.
  rewrite concat_map_toLowerCase, concat_words, filter_nonspace_blank.
  now rewrite filter_alnum_camel_split, filter_alnum_pad_digits.
Qed.

Lemma tokens_nil_iff str :
  tokens str = [] <-> forallb (fun c => negb (is_alnum c)) str = true.
Proof.
  split.
  - intros H. pose proof (concat_tokens str) as Hc. rewrite H in Hc.
    cbn [List.concat] in Hc. symmetry in Hc. apply map_eq_nil in Hc.
    apply forallb_forall. intros c Hin.
    destruct (is_alnum c) eqn:E; [|reflexivity].
    assert (Hf : In c (filter is_alnum str)) by (apply filter_In; auto).
    rewrite Hc in Hf. destruct Hf.
  - intros H. apply tokens_plain.
    eapply forallb_impl; [|exact H]. intros c Hc.
    unfold is_alnum in Hc. now rewrite negb_orb in Hc.
Qed.

Lemma toSentence_nil_tokens str sep :
  toSentence str sep = [] -> tokens str = [].
Proof.
  unfold toSentence. rewrite lower_spaced_tokens.
  pose proof (tokens_are_words str) as Hw.
  destruct (tokens str) as [|w ws]; [reflexivity|].
  inversion Hw as [|? ? H1 _]; subst. intros H. exfalso.
  unfold is_word_of in H1. apply andb_true_iff in H1 as [Hn Hs].
  destruct w as [|c w']; [discriminate|].
  cbn [forallb] in Hs. apply andb_true_iff in Hs as [Hc _].
  unfold is_nonspace in Hc. apply negb_true_iff in Hc.
  rewrite intercalate_cons_unit in H. unfold replace_g in H.
  cbn [replace_loop] in H. rewrite exec_plus, Hc in H. discriminate.
Qed.

(** X1.  For a separator without a dollar sign, the normalized string is
    the word list of the default normalization joined by the separator,
    and each of these words is a non-empty run of lower-case letters or a
    non-empty run of digits: the separator never leads, never trails and
    never stands twice in a row. *)
Theorem toSentence_joins_tokens (x sep : jstring) :
  forallb (fun c => negb (N.eqb c DOLLAR)) sep = true ->
  toSentence x sep = intercalate sep (words (toSentence x default_separator))
  /\ Forall (fun w => is_token w = true)
       (words (toSentence x default_separator)).
Proof.
  intros H. rewrite words_toSentence. split.
  - now apply toSentence_tokens.
  - apply tokens_are_tokens.
Qed.

Lemma toSentence_joins_tokens_witness :
  forallb (fun c => negb (N.eqb c DOLLAR)) (lit "::") = true
  /\ toSentence (lit "getHTTP2Response") (lit "::")
     = intercalate (lit "::")
         (words (toSentence (lit "getHTTP2Response") default_separator))
  /\ Forall (fun w => is_token w = true)
       (words (toSentence (lit "getHTTP2Response") default_separator)).
Proof.
  split; [reflexivity|].
  apply (toSentence_joins_tokens (lit "getHTTP2Response") (lit "::")).
  reflexivity.
Defined.

(** X2.  Lower case ([toSentence] with the empty separator) keeps exactly
    the ASCII letters and digits of the input, in their order and
    lower-cased, and drops every other unit. *)
Theorem toCase_lower_keeps_alnum (x : jstring) :
  toCase x (Member CaseConverterEnum.LowerCase)
  = toLowerCase (filter is_alnum x).
Proof.
  cbn [toCase]. rewrite toSentence_tokens by reflexivity.
  now rewrite intercalate_nil, concat_tokens.
Qed.

(** X3.  Whatever the separator, the normalized string is empty exactly
    when the input holds no ASCII letter and no digit. *)
Theorem toSentence_empty_iff (x sep : jstring) :
  toSentence x sep = [] <-> forallb (fun c => negb (is_alnum c)) x = true.
Proof.
  rewrite <- tokens_nil_iff. split.
  - apply toSentence_nil_tokens.
  - intros H. now apply toSentence_no_tokens.
Qed.

(** ** The renderers on the token sequence *)

Lemma upper_unit_not_lower c : is_lower c = false -> upper_unit c = c.
Proof. intros H. unfold upper_unit. now rewrite H. Qed.

Lemma upper_unit_lower c : is_lower c = true -> is_upper (upper_unit c) = true.
Proof.
  intros H. apply lower_range in H.
  unfold upper_unit, is_upper, is_lower, between. settle_cmp.
Qed.

Lemma lower_upper_unit c : is_upper c = false -> lower_unit (upper_unit c) = c.
Proof.
  intros H. unfold upper_unit. destruct (is_lower c) eqn:Hl.
  - apply lower_range in Hl. unfold lower_unit, is_upper, between.
    settle_cmp. lia.
  - now apply lower_unit_not_upper.
Qed.

Lemma toUpperCase_digits w :
  forallb is_digit w = true -> toUpperCase w = w.
Proof.
  induction w as [|c t IH]; [reflexivity|]. cbn [forallb].
  intros H. apply andb_true_iff in H as [Hc Ht].
  cbn [toUpperCase map]. fold (toUpperCase t).
  now rewrite upper_unit_not_lower, IH by auto using digit_not_lower.
Qed.

Lemma token_lower_id w : is_token w = true -> toLowerCase w = w.
Proof.
  intros H. apply token_units in H. apply toLowerCase_id.
  eapply forallb_impl; [|exact H]. intros c Hc.
  apply orb_true_iff in Hc as [Hc | Hc].
  - now rewrite lower_not_upper.
  - now rewrite digit_not_upper.
Qed.

Lemma token_tail_lower_id c t :
  is_token (c :: t) = true -> toLowerCase t = t.
Proof.
  intros H. apply token_lower_id in H. cbn [toLowerCase map] in H.
  now injection H.
Qed.

(** On a token, the replacer of [toTitleCase] and the body of
    [toSentenceCase] only upper-case the first unit. *)
Lemma capitalize_token w : is_token w = true -> capitalize w = upper_first w.
Proof.
  intros H. destruct w as [|c t]; [reflexivity|].
  cbn [capitalize upper_first]. f_equal.
  exact (token_tail_lower_id _ _ H).
Qed.

Lemma title_replacer txt :
  toUpperCase (charAt txt 0) ++ toLowerCase (substr txt 1) = capitalize txt.
Proof. now destruct txt. Qed.

(** [\w\S*] *)
Lemma exec_word_nonspace pos s :
  exec_at (Seq (Cls is_word) (Star is_nonspace)) pos s =
    match s with
    | c :: t =>
        if is_word c then Some (S (span is_nonspace t), []) else None
    | [] => None
    end.
Proof.
  unfold exec_at. destruct s as [|c t]; simpl; [reflexivity|].
  destruct (is_word c); [|reflexivity].
  rewrite star_total by discriminate.
  replace (S pos + span is_nonspace t - pos)
    with (S (span is_nonspace t)) by lia.
  reflexivity.
Qed.

Lemma span_word w r :
  forallb is_nonspace w = true ->
  match r with d :: _ => is_space d | [] => true end = true ->
  span is_nonspace (w ++ r) = List.length w.
Proof.
  intros Hw Hr. induction w as [|c t IH].
  - destruct r as [|d r']; [reflexivity|]. cbn [app span].
    unfold is_nonspace. now rewrite Hr.
  - cbn [forallb] in Hw. apply andb_true_iff in Hw as [Hc Ht].
    cbn [app span List.length]. now rewrite Hc, IH.
Qed.

Lemma replace_loop_skip r f whole w rest :
  forall pos,
    replace_loop r f whole (List.length w) pos (w ++ rest)
    = replace_loop r f whole 0 (pos + List.length w) rest.
Proof.
  induction w as [|c t IH]; intros pos.
  - cbn [List.length app]. now rewrite Nat.add_0_r.
  - cbn [List.length app replace_loop]. rewrite IH.
    f_equal. lia.
Qed.

Lemma title_loop_word whole w r pos :
  is_token w = true ->
  match r with d :: _ => is_space d | [] => true end = true ->
  replace_loop (Seq (Cls is_word) (Star is_nonspace)) title_case_replacer
    whole 0 pos (w ++ r)
  = upper_first w
      ++ replace_loop (Seq (Cls is_word) (Star is_nonspace))
           title_case_replacer whole 0 (pos + List.length w) r.
Proof.
  intros Hw Hr. pose proof (capitalize_token _ Hw) as Hcap.
  destruct (token_head_word _ Hw) as [c [t [-> Hc]]].
  pose proof (token_is_word _ Hw) as Hword. unfold is_word_of in Hword.
  apply andb_true_iff in Hword as [_ Hns]. cbn [forallb] in Hns.
  apply andb_true_iff in Hns as [_ Hns].
  cbn [app replace_loop]. rewrite exec_word_nonspace, Hc.
  rewrite span_word by assumption.
  unfold title_case_replacer at 1. rewrite title_replacer.
  change (c :: t ++ r) with ((c :: t) ++ r).
  replace (S (List.length t)) with (List.length (c :: t)) by reflexivity.
  rewrite firstn_app, Nat.sub_diag, firstn_all. cbn [firstn].
  rewrite app_nil_r, Hcap. f_equal.
  rewrite replace_loop_skip. f_equal. cbn [List.length]. lia.
Qed.

Lemma title_loop_tokens whole ws :
  Forall (fun w => is_token w = true) ws ->
  forall pos,
    replace_loop (Seq (Cls is_word) (Star is_nonspace)) title_case_replacer
      whole 0 pos (intercalate [SPACE] ws)
    = intercalate [SPACE] (map upper_first ws).
Proof.
  induction 1 as [|w ws Hw Hws IH]; intros pos; [reflexivity|].
  destruct ws as [|w' ws'].
  - cbn [intercalate map]. rewrite title_loop_word by auto.
    reflexivity.
  - rewrite intercalate_two. cbn [map]. rewrite intercalate_two.
    rewrite title_loop_word by auto. f_equal.
    cbn [app replace_loop]. rewrite exec_word_nonspace.
    change (is_word SPACE) with false. cbv iota. f_equal. apply IH.
Qed.

Lemma toTitleCase_tokens str :
  toTitleCase str = intercalate [SPACE] (map upper_first (tokens str)).
Proof.
  unfold toTitleCase, replace_g. rewrite toSentence_default.
  apply title_loop_tokens, tokens_are_tokens.
Qed.

Lemma toSentenceCase_tokens str :
  toSentenceCase str
  = match tokens str with
    | [] => []
    | w :: ws => intercalate [SPACE] (upper_first w :: ws)
    end.
Proof.
  unfold toSentenceCase. rewrite title_replacer, toSentence_default.
  pose proof (tokens_are_tokens str) as H.
  destruct (tokens str) as [|w ws]; [reflexivity|].
  inversion H as [|? ? Hw Hws]; subst.
  destruct (token_head_word _ Hw) as [c [t [-> Hc]]].
  rewrite intercalate_cons_unit. cbn [capitalize upper_first].
  rewrite intercalate_cons_unit. f_equal.
  change (map lower_unit (intercalate [SPACE] (t :: ws)))
    with (toLowerCase (intercalate [SPACE] (t :: ws))).
  rewrite toLowerCase_intercalate. cbn [map].
  rewrite (token_tail_lower_id _ _ Hw). f_equal. f_equal.
  clear - Hws. induction Hws as [|w ws Hw Hws IH]; [reflexivity|].
  cbn [map]. now rewrite token_lower_id, IH.
Qed.

(** [.replace(/^[a-zA-Z]/, a => a.toUpperCase())] *)
Lemma exec_bol_letter pos s :
  exec_at (Seq Bol (Cls is_letter)) pos s =
    match s with
    | c :: _ =>
        if Nat.eqb pos 0 && is_letter c then Some (1, []) else None
    | [] => None
    end.
Proof.
  unfold exec_at. destruct s as [|c t]; simpl.
  - now destruct (Nat.eqb pos 0).
  - destruct (Nat.eqb pos 0); simpl; [|reflexivity].
    destruct (is_letter c); [|reflexivity]. now rewrite sub_succ_self.
Qed.

Lemma replace_first_bol_rest f whole s :
  forall pos,
    replace_first_loop (Seq Bol (Cls is_letter)) f whole (S pos) s = s.
Proof.
  induction s as [|c t IH]; intros pos.
  - reflexivity.
  - cbn [replace_first_loop]. rewrite exec_bol_letter.
    cbn [Nat.eqb andb]. now rewrite IH.
Qed.

Lemma letter_cases c :
  is_letter c = false -> is_lower c = false.
Proof. unfold is_letter. intros H. now apply orb_false_iff in H. Qed.

Lemma replace_first_upper s :
  replace_first (Seq Bol (Cls is_letter)) (fun a _ _ _ => toUpperCase a) s
  = upper_first s.
Proof.
  unfold replace_first. destruct s as [|c t]; [reflexivity|].
  cbn [replace_first_loop]. rewrite exec_bol_letter.
  cbn [Nat.eqb andb]. destruct (is_letter c) eqn:Hc.
  - reflexivity.
  - rewrite replace_first_bol_rest. cbn [upper_first].
    now rewrite upper_unit_not_lower by now apply letter_cases.
Qed.

Lemma toPascalCase_upper_first str :
  toPascalCase str = upper_first (toCamelCase str).
Proof. unfold toPascalCase. apply replace_first_upper. Qed.

Lemma toPascalCase_tokens str :
  toPascalCase str = List.concat (map upper_first (tokens str)).
Proof.
  rewrite toPascalCase_upper_first, toCamelCase_tokens.
  pose proof (tokens_are_tokens str) as H.
  destruct (tokens str) as [|w ws]; [reflexivity|].
  inversion H as [|? ? Hw _]; subst.
  destruct (token_head_word _ Hw) as [c [t [-> _]]].
  reflexivity.
Qed.

Lemma toUpperCase_app u v :
  toUpperCase (u ++ v) = toUpperCase u ++ toUpperCase v.
Proof. apply map_app. Qed.

Lemma toUpperCase_intercalate sep ws :
  toUpperCase (intercalate sep ws)
  = intercalate (toUpperCase sep) (map toUpperCase ws).
Proof.
  induction ws as [|w ws IH]; [reflexivity|].
  destruct ws as [|w' ws'].
  - simpl. now rewrite !app_nil_r.
  - rewrite intercalate_two. cbn [map]. rewrite intercalate_two.
    rewrite !toUpperCase_app. now rewrite IH.
Qed.

Lemma toConstantCase_tokens str :
  toConstantCase str = intercalate (lit "_") (map toUpperCase (tokens str)).
Proof.
  unfold toConstantCase. rewrite toSentence_tokens by reflexivity.
  now rewrite toUpperCase_intercalate.
Qed.

(** ** Words that are one token *)

Lemma camel_split_no_hump s : no_hump s = true -> camel_split s = s.
Proof.
  induction s as [|c t IH]; [reflexivity|].
  cbn [no_hump camel_split]. intros H.
  apply andb_true_iff in H as [Hc Ht]. apply negb_true_iff in Hc.
  now rewrite Hc, IH.
Qed.

Lemma letter_alnum_or_space c :
  is_letter c = true -> is_alnum_or_space c = true.
Proof. intros H. unfold is_alnum_or_space. now rewrite H. Qed.

Lemma letter_not_digit c : is_letter c = true -> is_digit c = false.
Proof. intros H. apply letter_range in H. unfold_classes. split_cmp. Qed.

Lemma tokens_plain_word w :
  nonempty w = true -> forallb is_letter w = true -> no_hump w = true ->
  tokens w = [toLowerCase w].
Proof.
  intros Hn Hl Hh. unfold tokens, boundaries.
  rewrite pad_digits_no_digit
    by (eapply forallb_impl; [|exact Hl]; intros c Hc;
        now rewrite letter_not_digit).
  rewrite camel_split_no_hump by exact Hh.
  rewrite blank_id
    by (eapply forallb_impl; [|exact Hl]; apply letter_alnum_or_space).
  rewrite words_word; [reflexivity|].
  unfold is_word_of. rewrite Hn. cbn [andb].
  eapply forallb_impl; [|exact Hl]. intros c Hc.
  unfold is_nonspace. now rewrite letter_not_space.
Qed.

Lemma no_hump_no_lower w :
  forallb (fun c => negb (is_lower c)) w = true -> no_hump w = true.
Proof.
  induction w as [|c t IH]; [reflexivity|]. cbn [forallb no_hump].
  intros H. apply andb_true_iff in H as [Hc Ht].
  apply negb_true_iff in Hc. rewrite Hc. cbn [andb negb].
  now apply IH.
Qed.

Lemma no_hump_no_upper w :
  forallb (fun c => negb (is_upper c)) w = true -> no_hump w = true.
Proof.
  induction w as [|c t IH]; [reflexivity|]. cbn [forallb no_hump].
  intros H. apply andb_true_iff in H as [Hc Ht].
  rewrite IH by exact Ht. destruct t as [|d t'].
  - now rewrite andb_false_r.
  - cbn [forallb] in Ht. apply andb_true_iff in Ht as [Hd _].
    apply negb_true_iff in Hd. now rewrite Hd, andb_false_r.
Qed.

Lemma toLowerCase_toUpperCase w :
  forallb (fun c => negb (is_upper c)) w = true ->
  toLowerCase (toUpperCase w) = w.
Proof.
  induction w as [|c t IH]; [reflexivity|]. cbn [forallb].
  intros H. apply andb_true_iff in H as [Hc Ht].
  apply negb_true_iff in Hc. cbn [toUpperCase toLowerCase map].
  rewrite lower_upper_unit by exact Hc. f_equal. now apply IH.
Qed.

Lemma token_no_upper w :
  is_token w = true -> forallb (fun c => negb (is_upper c)) w = true.
Proof.
  intros H. apply token_units in H.
  eapply forallb_impl; [|exact H]. intros c Hc.
  apply orb_true_iff in Hc as [Hc | Hc].
  - now rewrite lower_not_upper.
  - now rewrite digit_not_upper.
Qed.

Lemma upper_unit_letter c : is_lower c = true -> is_letter (upper_unit c) = true.
Proof.
  intros H. unfold is_letter. rewrite (upper_unit_lower _ H).
  apply orb_true_r.
Qed.

Lemma upper_unit_lower_not_lower c :
  is_lower c = true -> is_lower (upper_unit c) = false.
Proof.
  intros H. apply lower_range in H.
  unfold upper_unit, is_lower, between. settle_cmp.
Qed.

(** An upper-cased token is read back as the token. *)
Lemma tokens_upper_token w : is_token w = true -> tokens (toUpperCase w) = [w].
Proof.
  intros Hw. pose proof (token_no_upper _ Hw) as Hnu.
  unfold is_token in Hw. apply andb_true_iff in Hw as [Hn H].
  apply orb_true_iff in H as [H | H].
  - rewrite tokens_plain_word.
    + now rewrite toLowerCase_toUpperCase.
    + now destruct w.
    + unfold toUpperCase. apply forallb_forall. intros c Hc.
      apply in_map_iff in Hc as [a [<- Ha]].
      rewrite forallb_forall in H. now apply upper_unit_letter, H.
    + apply no_hump_no_lower. unfold toUpperCase.
      apply forallb_forall. intros c Hc.
      apply in_map_iff in Hc as [a [<- Ha]].
      rewrite forallb_forall in H.
      now rewrite upper_unit_lower_not_lower by now apply H.
  - rewrite toUpperCase_digits by exact H.
    apply tokens_token. unfold is_token. rewrite Hn, H.
    now rewrite orb_true_r.
Qed.

(** A token with its first unit upper-cased is read back as the token. *)
Lemma tokens_upper_first_token w :
  is_token w = true -> tokens (upper_first w) = [w].
Proof.
  intros Hw. pose proof (token_no_upper _ Hw) as Hnu.
  pose proof Hw as Hw0.
  unfold is_token in Hw. apply andb_true_iff in Hw as [Hn H].
  destruct w as [|c t]; [discriminate|].
  cbn [forallb] in Hnu. apply andb_true_iff in Hnu as [Hc Ht].
  apply negb_true_iff in Hc.
  apply orb_true_iff in H as [H | H]; cbn [forallb] in H;
    apply andb_true_iff in H as [Hh Hr]; cbn [upper_first].
  - rewrite tokens_plain_word.
    + cbn [toLowerCase map]. rewrite lower_upper_unit by exact Hc.
      f_equal. f_equal. now apply toLowerCase_id.
    + reflexivity.
    + cbn [forallb]. rewrite upper_unit_letter by exact Hh.
      eapply forallb_impl; [|exact Hr]. intros a Ha.
      unfold is_letter. now rewrite Ha.
    + cbn [no_hump]. rewrite upper_unit_lower_not_lower by exact Hh.
      cbn [andb negb]. now apply no_hump_no_upper.
  - rewrite upper_unit_not_lower by now apply digit_not_lower.
    now apply tokens_token.
Qed.

Lemma flat_map_tokens_map (f : jstring -> jstring) ws :
  (forall w, is_token w = true -> tokens (f w) = [w]) ->
  Forall (fun w => is_token w = true) ws ->
  flat_map tokens (map f ws) = ws.
Proof.
  intros Hf. induction 1 as [|w ws Hw Hws IH]; [reflexivity|].
  cbn [map flat_map]. now rewrite Hf, IH.
Qed.

(** ** Outputs that keep the token sequence *)

Lemma tokens_toSentence str sep :
  sep <> [] -> forallb plain_unit sep = true ->
  tokens (toSentence str sep) = tokens str.
Proof.
  intros Hne Hsep.
  rewrite toSentence_tokens by now apply plain_no_dollar.
  rewrite tokens_intercalate by auto using plain_no_alnum.
  apply flat_map_tokens, tokens_are_tokens.
Qed.

Lemma tokens_toConstantCase str :
  tokens (toConstantCase str) = tokens str.
Proof.
  rewrite toConstantCase_tokens.
  rewrite tokens_intercalate by (discriminate || reflexivity).
  apply flat_map_tokens_map;
    auto using tokens_upper_token, tokens_are_tokens.
Qed.

Lemma tokens_toTitleCase str : tokens (toTitleCase str) = tokens str.
Proof.
  rewrite toTitleCase_tokens.
  rewrite tokens_intercalate by (discriminate || reflexivity).
  apply flat_map_tokens_map;
    auto using tokens_upper_first_token, tokens_are_tokens.
Qed.

Lemma tokens_toSentenceCase str : tokens (toSentenceCase str) = tokens str.
Proof.
  rewrite toSentenceCase_tokens.
  pose proof (tokens_are_tokens str) as H.
  destruct (tokens str) as [|w ws]; [reflexivity|].
  inversion H as [|? ? Hw Hws]; subst.
  rewrite tokens_intercalate by (discriminate || reflexivity).
  cbn [flat_map]. rewrite tokens_upper_first_token by exact Hw.
  now rewrite flat_map_tokens.
Qed.

(** Every renderer reads the input through its token sequence only. *)
Lemma toCase_same_tokens x y t :
  renders t = true -> tokens x = tokens y ->
  toCase x (Member t) = toCase y (Member t).
Proof.
  intros Ht H.
  destruct t; try discriminate; cbn [toCase];
    unfold toPascalCase, toCamelCase, toConstantCase, toTitleCase,
      toSentenceCase;
    now rewrite (toSentence_same_tokens x y) by exact H.
Qed.

Lemma tokens_kept x t :
  keeps_tokens t = true -> tokens (toCase x (Member t)) = tokens x.
Proof.
  intros Ht. destruct t; try discriminate; cbn [toCase];
    auto using tokens_toConstantCase, tokens_toTitleCase,
      tokens_toSentenceCase;
    apply tokens_toSentence; (discriminate || reflexivity).
Qed.

(** ** The camel-case boundary *)

Lemma camel_split_hump a l u b :
  is_lower l = true -> is_upper u = true ->
  camel_split (a ++ l :: u :: b)
  = camel_split (a ++ [l]) ++ SPACE :: camel_split (u :: b).
Proof.
  intros Hl Hu. induction a as [|c a IH].
  - cbn [app camel_split]. rewrite Hl, Hu. reflexivity.
  - cbn [app]. cbn [camel_split] in *. rewrite IH.
    destruct a as [|d a']; cbn [app].
    + rewrite (lower_not_upper _ Hl), andb_false_r. reflexivity.
    + now destruct (is_lower c && is_upper d).
Qed.

Lemma not_alnum_plain s :
  forallb (fun c => negb (is_alnum c)) s = true ->
  forallb (fun c => negb (is_letter c) && negb (is_digit c)) s = true.
Proof.
  apply forallb_impl. intros c Hc. unfold is_alnum in Hc.
  now rewrite negb_orb in Hc.
Qed.

(** White-space-free text has no match of [\s+]. *)
Lemma replace_runs_no_space f whole s :
  forallb is_nonspace s = true ->
  forall pos, replace_loop (Plus is_space) f whole 0 pos s = s.
Proof.
  induction s as [|c t IH]; intros H pos; [reflexivity|].
  cbn [forallb] in H. apply andb_true_iff in H as [Hc Ht].
  unfold is_nonspace in Hc. apply negb_true_iff in Hc.
  cbn [replace_loop]. rewrite exec_plus, Hc. now rewrite IH.
Qed.

Lemma upper_not_digit c : is_upper c = true -> is_digit c = false.
Proof. unfold_classes. split_cmp. Qed.

(** ** Entries *)

(** X4.  Pascal case is camel case with its first unit upper-cased, and
    on the words of the normalized input it is every word with its first
    unit upper-cased, nothing in between. *)
Theorem toCase_pascal_case (x : jstring) :
  toCase x (Member CaseConverterEnum.PascalCase)
  = upper_first (toCase x (Member CaseConverterEnum.CamelCase))
  /\ toCase x (Member CaseConverterEnum.PascalCase)
     = List.concat
         (map upper_first (words (toSentence x default_separator))).
Proof.
  cbn [toCase]. rewrite words_toSentence. split.
  - apply toPascalCase_upper_first.
  - apply toPascalCase_tokens.
Qed.

(** X5.  Title case is the words of the normalized input, each with its
    first unit upper-cased, one space apart. *)
Theorem toCase_title_case (x : jstring) :
  toCase x (Member CaseConverterEnum.TitleCase)
  = intercalate [SPACE]
      (map upper_first (words (toSentence x default_separator))).
Proof.
  cbn [toCase]. rewrite words_toSentence. apply toTitleCase_tokens.
Qed.

(** X6.  Sentence case only changes the first unit: it is the normalized
    input with its first unit upper-cased; lower-casing the remainder
    changes nothing. *)
Theorem toCase_sentence_case_first_unit (x : jstring) :
  toCase x (Member CaseConverterEnum.SentenceCase)
  = upper_first (toSentence x default_separator).
Proof.
  cbn [toCase]. rewrite toSentenceCase_tokens, toSentence_default.
  pose proof (tokens_are_tokens x) as H.
  destruct (tokens x) as [|w ws]; [reflexivity|].
  inversion H as [|? ? Hw _]; subst.
  destruct (token_head_word _ Hw) as [c [t [-> _]]].
  reflexivity.
Qed.

(** X7.  Constant case is the words of the normalized input, each
    upper-cased, with one underscore between neighbours; its units are
    upper-case ASCII letters, digits and underscores. *)
Theorem toCase_constant_case (x : jstring) :
  toCase x (Member CaseConverterEnum.ConstantCase)
  = intercalate (lit "_")
      (map toUpperCase (words (toSentence x default_separator)))
  /\ forallb (fun c => is_upper c || is_digit c || N.eqb c 95)
       (toCase x (Member CaseConverterEnum.ConstantCase)) = true.
Proof.
  cbn [toCase]. rewrite words_toSentence. split.
  - apply toConstantCase_tokens.
  - unfold toConstantCase, toUpperCase.
    pose proof (toSentence_snake_ascii x) as H.
    rewrite forallb_forall in *. intros c Hc.
    apply in_map_iff in Hc as [a [<- Ha]]. specialize (H a Ha).
    apply orb_true_iff in H as [H | H].
    + apply orb_true_iff in H as [H | H].
      * now rewrite upper_unit_lower.
      * rewrite upper_unit_not_lower by now apply digit_not_lower.
        rewrite H. now rewrite orb_true_r.
    + apply N.eqb_eq in H. subst. reflexivity.
Qed.

(** X8.  The renderers differ from the normalizer by letter case only:
    lower-casing title case or sentence case gives the normalized input,
    lower-casing constant case gives snake case, and lower-casing camel
    case or Pascal case gives lower case. *)
Theorem toCase_lower_cased (x : jstring) :
  toLowerCase (toCase x (Member CaseConverterEnum.TitleCase))
  = toSentence x default_separator
  /\ toLowerCase (toCase x (Member CaseConverterEnum.SentenceCase))
     = toSentence x default_separator
  /\ toLowerCase (toCase x (Member CaseConverterEnum.ConstantCase))
     = toCase x (Member CaseConverterEnum.SnakeCase)
  /\ toLowerCase (toCase x (Member CaseConverterEnum.CamelCase))
     = toCase x (Member CaseConverterEnum.LowerCase)
  /\ toLowerCase (toCase x (Member CaseConverterEnum.PascalCase))
     = toCase x (Member CaseConverterEnum.LowerCase).
Proof.
  assert (Hfirst : forall ws,
             Forall (fun w => is_token w = true) ws ->
             map toLowerCase (map upper_first ws) = ws).
  { induction 1 as [|w ws Hw Hws IH]; [reflexivity|].
    cbn [map]. rewrite IH. f_equal.
    pose proof (token_no_upper _ Hw) as Hnu.
    destruct w as [|c t]; [reflexivity|].
    cbn [forallb] in Hnu. apply andb_true_iff in Hnu as [Hc Ht].
    apply negb_true_iff in Hc. cbn [upper_first toLowerCase map].
    rewrite lower_upper_unit by exact Hc. f_equal.
    now apply toLowerCase_id. }
  assert (Hall : forall ws,
             Forall (fun w => is_token w = true) ws ->
             map toLowerCase (map toUpperCase ws) = ws).
  { induction 1 as [|w ws Hw Hws IH]; [reflexivity|].
    cbn [map]. rewrite IH. f_equal.
    now apply toLowerCase_toUpperCase, token_no_upper. }
  pose proof (tokens_are_tokens x) as Htok.
  cbn [toCase]. repeat split.
  - rewrite toTitleCase_tokens, toSentence_default,
      toLowerCase_intercalate. now rewrite Hfirst.
  - rewrite toSentenceCase_tokens, toSentence_default.
    destruct (tokens x) as [|w ws]; [reflexivity|].
    rewrite toLowerCase_intercalate.
    change (map toLowerCase (upper_first w :: ws))
      with (map toLowerCase (map upper_first [w]) ++ map toLowerCase ws).
    inversion Htok as [|? ? Hw Hws]; subst.
    rewrite Hfirst by (constructor; [exact Hw | constructor]).
    cbn [app]. f_equal. f_equal.
    clear - Hws. induction Hws as [|v vs Hv Hvs IH]; [reflexivity|].
    cbn [map]. now rewrite token_lower_id, IH.
  - unfold toConstantCase. apply toLowerCase_toUpperCase.
    pose proof (toSentence_snake_ascii x) as H.
    eapply forallb_impl; [|exact H]. intros c Hc.
    apply orb_true_iff in Hc as [Hc | Hc].
    + apply orb_true_iff in Hc as [Hc | Hc].
      * now rewrite lower_not_upper.
      * now rewrite digit_not_upper.
    + apply N.eqb_eq in Hc. subst. reflexivity.
  - rewrite toCamelCase_tokens, toSentence_tokens by reflexivity.
    rewrite intercalate_nil.
    destruct (tokens x) as [|w ws]; [reflexivity|].
    inversion Htok as [|? ? Hw Hws]; subst.
    rewrite toLowerCase_app, <- concat_map_toLowerCase.
    rewrite Hfirst by exact Hws. now rewrite token_lower_id.
  - rewrite toPascalCase_tokens, toSentence_tokens by reflexivity.
    rewrite intercalate_nil, <- concat_map_toLowerCase.
    now rewrite Hfirst.
Qed.

(** X9.  Delimiters are interchangeable: a non-empty run of units that
    are neither letters nor digits can be replaced by any other such run
    without changing what any renderer returns. *)
Theorem toCase_delimiters_interchangeable
        (u p q v : jstring) (t : CaseConverterEnum.t) :
  renders t = true ->
  p <> [] -> forallb (fun c => negb (is_alnum c)) p = true ->
  q <> [] -> forallb (fun c => negb (is_alnum c)) q = true ->
  toCase (u ++ p ++ v) (Member t) = toCase (u ++ q ++ v) (Member t).
Proof.
  intros Ht Hp Hpp Hq Hqq. apply toCase_same_tokens; [exact Ht|].
  now rewrite !tokens_app_sep by auto using not_alnum_plain.
Qed.

Lemma toCase_delimiters_interchangeable_witness :
  toCase (lit "user" ++ lit "_" ++ lit "id")
    (Member CaseConverterEnum.PascalCase)
  = toCase (lit "user" ++ lit " - " ++ lit "id")
      (Member CaseConverterEnum.PascalCase).
Proof.
  apply (toCase_delimiters_interchangeable
           (lit "user") (lit "_") (lit " - ") (lit "id")
           CaseConverterEnum.PascalCase);
    (reflexivity || discriminate).
Defined.

(** X10.  Renderings compose: after a renderer that keeps a separator
    between the tokens (dot, kebab, path, snake, constant, sentence and
    title case; also [None]), any renderer gives what it gives on the
    original input.  In particular each of these renderers is
    idempotent. *)
Theorem toCase_after_toCase (x : jstring) (t1 t2 : CaseConverterEnum.t) :
  keeps_tokens t1 = true -> renders t2 = true ->
  toCase (toCase x (Member t1)) (Member t2) = toCase x (Member t2).
Proof.
  intros H1 H2. apply toCase_same_tokens; [exact H2|].
  now apply tokens_kept.
Qed.

Lemma toCase_after_toCase_witness :
  toCase (toCase (lit "livesDown_by-the.River")
            (Member CaseConverterEnum.ConstantCase))
    (Member CaseConverterEnum.CamelCase)
  = toCase (lit "livesDown_by-the.River")
      (Member CaseConverterEnum.CamelCase).
Proof.
  apply (toCase_after_toCase (lit "livesDown_by-the.River")
           CaseConverterEnum.ConstantCase CaseConverterEnum.CamelCase);
    reflexivity.
Defined.

(** X11.  A lower-case letter directly before an upper-case letter ends
    a token: what precedes the boundary and what follows it are
    tokenized on their own. *)
Theorem camel_boundary_splits_tokens (u v : jstring) (l c : code_unit) :
  is_lower l = true -> is_upper c = true ->
  words (toSentence (u ++ l :: c :: v) default_separator)
  = words (toSentence (u ++ [l]) default_separator)
      ++ words (toSentence (c :: v) default_separator).
Proof.
  intros Hl Hc. rewrite !words_toSentence. unfold tokens, boundaries.
  rewrite !pad_digits_app_nondigit by now apply lower_not_digit.
  cbn [pad_digits]. rewrite (upper_not_digit c Hc). cbn [app].
  rewrite camel_split_hump by assumption.
  rewrite blank_app. cbn [blank map].
  fold (blank (camel_split (c :: pad_digits false v))).
  change (blank_unit SPACE) with SPACE.
  rewrite words_app_space by apply is_space_SPACE.
  now rewrite map_app.
Qed.

Lemma camel_boundary_splits_tokens_witness :
  words (toSentence (lit "parseX" ++ N_of_ascii "m" :: N_of_ascii "L"
                       :: lit "Doc") default_separator)
  = words (toSentence (lit "parseX" ++ [N_of_ascii "m"]) default_separator)
      ++ words (toSentence (N_of_ascii "L" :: lit "Doc") default_separator).
Proof.
  apply (camel_boundary_splits_tokens (lit "parseX") (lit "Doc")
           (N_of_ascii "m") (N_of_ascii "L"));
    reflexivity.
Defined.

(** X12.  A run of letters in which no lower-case letter stands directly
    before an upper-case one is a single token whatever its casing (an
    acronym is not split from the word that follows it): its
    normalization is the run lower-cased, for every separator. *)
Theorem toSentence_single_word (w sep : jstring) :
  nonempty w = true -> forallb is_letter w = true -> no_hump w = true ->
  toSentence w sep = toLowerCase w.
Proof.
  intros Hn Hl Hh. unfold toSentence.
  rewrite lower_spaced_tokens, tokens_plain_word by assumption.
  cbn [intercalate]. rewrite app_nil_r. unfold replace_g.
  apply replace_runs_no_space.
  unfold toLowerCase. apply forallb_forall. intros c Hc.
  apply in_map_iff in Hc as [a [<- Ha]]. rewrite forallb_forall in Hl.
  unfold is_nonspace. rewrite lower_not_space; [reflexivity|].
  now apply lower_unit_letter, Hl.
Qed.

Lemma toSentence_single_word_witness :
  toSentence (lit "HTTPServer") (lit "_") = toLowerCase (lit "HTTPServer").
Proof.
  apply (toSentence_single_word (lit "HTTPServer") (lit "_")); reflexivity.
Defined.

Lemma is_alnum_lower_unit c : is_alnum (lower_unit c) = is_alnum c.
Proof.
  unfold lower_unit. destruct (is_upper c) eqn:Hu; [|reflexivity].
  assert (Hl : is_letter c = true)
    by (unfold is_letter; rewrite Hu; apply orb_true_r).
  unfold is_alnum at 2. rewrite Hl. cbn [orb].
  apply upper_range in Hu. unfold is_alnum. unfold_classes. settle_cmp.
Qed.

Lemma forallb_alnum_toLowerCase s :
  forallb is_alnum (toLowerCase s) = forallb is_alnum s.
Proof.
  induction s as [|c t IH]; [reflexivity|].
  cbn [toLowerCase map forallb]. fold (toLowerCase t).
  now rewrite is_alnum_lower_unit, IH.
Qed.

Lemma forallb_filter (p : code_unit -> bool) s :
  forallb p (filter p s) = true.
Proof.
  apply forallb_forall. intros c Hc. now apply filter_In in Hc.
Qed.

(** X13.  Camel case and Pascal case hold ASCII letters and digits only
    (no space, no delimiter); camel case does not start with an
    upper-case letter and Pascal case does not start with a lower-case
    letter. *)
Theorem camel_pascal_units (x : jstring) :
  forallb is_alnum (toCase x (Member CaseConverterEnum.CamelCase)) = true
  /\ forallb is_alnum (toCase x (Member CaseConverterEnum.PascalCase)) = true
  /\ match toCase x (Member CaseConverterEnum.CamelCase) with
     | c :: _ => is_upper c = false
     | [] => True
     end
  /\ match toCase x (Member CaseConverterEnum.PascalCase) with
     | c :: _ => is_lower c = false
     | [] => True
     end.
Proof.
  destruct (toCase_lower_cased x) as [_ [_ [_ [Hc Hp]]]].
  pose proof (toCase_lower_keeps_alnum x) as Hl.
  split; [|split].
  - rewrite <- forallb_alnum_toLowerCase, Hc, Hl.
    rewrite forallb_alnum_toLowerCase. apply forallb_filter.
  - rewrite <- forallb_alnum_toLowerCase, Hp, Hl.
    rewrite forallb_alnum_toLowerCase. apply forallb_filter.
  - cbn [toCase]. rewrite toPascalCase_upper_first, toCamelCase_tokens.
    pose proof (tokens_are_tokens x) as H.
    destruct (tokens x) as [|w ws]; [split; exact I|].
    inversion H as [|? ? Hw _]; subst.
    pose proof (token_units _ Hw) as Hu.
    destruct w as [|c t]; [discriminate|].
    cbn [forallb] in Hu. apply andb_true_iff in Hu as [Hc0 _].
    cbn [app upper_first]. apply orb_true_iff in Hc0 as [Hc0 | Hc0].
    + split; [now apply lower_not_upper|].
      now apply upper_unit_lower_not_lower.
    + split; [now apply digit_not_upper|].
      rewrite upper_unit_not_lower by now apply digit_not_lower.
      now apply digit_not_lower.
Qed.

(** ** Separators with a dollar sign *)

Lemma replace_runs_word f whole w r :
  forallb is_nonspace w = true ->
  forall pos,
    replace_loop (Plus is_space) f whole 0 pos (w ++ r)
    = w ++ replace_loop (Plus is_space) f whole 0 (pos + List.length w) r.
Proof.
  induction w as [|c t IH]; intros H pos.
  - cbn [app List.length]. now rewrite Nat.add_0_r.
  - cbn [forallb] in H. apply andb_true_iff in H as [Hc Ht].
    unfold is_nonspace in Hc. apply negb_true_iff in Hc.
    cbn [app replace_loop List.length]. rewrite exec_plus, Hc.
    rewrite IH by exact Ht.
    replace (pos + S (List.length t)) with (S pos + List.length t) by lia.
    reflexivity.
Qed.

(** On single-spaced words every boundary is one match of [\s+], and the
    replacement is what the replacer makes of a single space. *)
Lemma replace_runs_intercalate f whole sep ws :
  (forall pos, f [SPACE] [] pos whole = sep) ->
  Forall (fun w => is_word_of w = true) ws ->
  forall pos,
    replace_loop (Plus is_space) f whole 0 pos (intercalate [SPACE] ws)
    = intercalate sep ws.
Proof.
  intros Hf. induction 1 as [|w ws Hw Hws IH]; intros pos; [reflexivity|].
  pose proof Hw as Hw0. unfold is_word_of in Hw.
  apply andb_true_iff in Hw as [_ Hns].
  destruct ws as [|w' ws'].
  - cbn [intercalate]. rewrite replace_runs_word by exact Hns.
    reflexivity.
  - rewrite !intercalate_two. rewrite replace_runs_word by exact Hns.
    f_equal. inversion Hws as [|? ? Hw' _]; subst.
    unfold is_word_of in Hw'. apply andb_true_iff in Hw' as [Hn' Hns'].
    destruct w' as [|c t]; [discriminate|].
    cbn [forallb] in Hns'. apply andb_true_iff in Hns' as [Hc _].
    unfold is_nonspace in Hc. apply negb_true_iff in Hc.
    specialize (IH (S (pos + List.length w))).
    rewrite intercalate_cons_unit in *.
    cbn [app replace_loop]. rewrite exec_plus.
    rewrite is_space_SPACE. cbn [span]. rewrite Hc.
    cbn [firstn]. rewrite Hf. f_equal. exact IH.
Qed.

(** X14.  Dollar patterns in the separator are expanded at every
    boundary: the separator "$&" acts as the default space, and "$$"
    acts as a single dollar sign. *)
Theorem toSentence_dollar_separators (x : jstring) :
  toSentence x (lit "$&") = toSentence x default_separator
  /\ toSentence x (lit "$$") = toSentence x (lit "$").
Proof.
  split.
  - rewrite toSentence_default. unfold toSentence, replace_g.
    rewrite lower_spaced_tokens.
    apply replace_runs_intercalate; [reflexivity|].
    apply tokens_are_words.
  - unfold toSentence, replace_g. rewrite lower_spaced_tokens.
    rewrite !replace_runs_intercalate with (sep := lit "$");
      auto using tokens_are_words.
Qed.
